(** * Locality sensitive hashing ([lsh_parallel.py]): model and properties

    A shallow embedding of the class [LSH] of [lsh_parallel.py]: the
    constructor, [get_hash_values], [make_hash_table] and
    [get_similar_samples_indices], together with the few numpy and
    [collections] primitives they call and the statements that follow the
    class; and of [min_edit_distance] of [levenshtein.py].

    Modelling decisions.
    - Array entries (float64 in the source) are an abstract type [R] with
      the interface [Scalar]: addition, multiplication and the IEEE
      comparisons [<] and [==].  Every result below holds for any
      implementation of the interface; [Z_scalar] instantiates it with
      exact integers for the concrete runs.
    - An ndarray is its shape together with its indexing function, so that
      arrays with an empty axis keep the other extents, as numpy does.
    - Integer arrays are int64: [np.power], the product and [np.sum] wrap
      around ([wrap64]).
    - [np.log2(m)] on an integer [m] works on float64: [m] is first
      rounded to the nearest double ([float64_of_int]), then the logarithm
      of the C library is taken and rounded.  The logarithm is an
      interface, [Log2], with the laws every accurate implementation
      obeys; [rounded_log2] is the implementation that rounds to the
      nearest double.  So [math.floor(np.log2(m))] is [floor(log2(m))] or
      one more.
    - [np.random.normal] is an explicit oracle [normal u d p] giving the
      entry drawn at each position.
    - [self] is threaded explicitly: a method returns its outcome and the
      object after the call.  The two nested [defaultdict]s are finite
      maps whose lookup of a missing key inserts the default.
    - [np.matmul] adds the products of one entry in the order of the
      summed axis, whatever the number of rows of the batch; a BLAS that
      orders the additions by the size of the batch is not modelled.
    - Memory exhaustion is not modelled: an array whose size in bytes fits
      the address space ([npy_intp]) is taken to be allocated. *)

From stdpp Require Import base numbers option list sorting strings gmap.

Local Open Scope Z_scope.

(** ** Exceptions and outcomes *)

(** The exceptions the modelled code can raise, named by their Python class
    and the operation that raises them. *)
Inductive exn : Type :=
  | TypeError_ufunc_log2_object      (* np.log2 of an int outside int64/uint64 *)
  | ValueError_float_nan_to_int      (* math.floor(nan) *)
  | OverflowError_float_inf_to_int   (* math.floor(-inf) *)
  | ValueError_array_shape           (* np.random.normal(size=...): a negative
                                        extent, or a size beyond npy_intp *)
  | ValueError_matmul_core_dimension (* np.matmul, inner extents differ *)
  | TypeError_iteration_over_0d      (* enumerate of a 0-d array *)
  | TypeError_NoneType_subscript     (* None[...] *)
  | TypeError_unhashable_ndarray.    (* dict key that is an array *)

Inductive result (A : Type) : Type :=
  | Ok (a : A)
  | Err (e : exn).
Arguments Ok {A} a.
Arguments Err {A} e.

(** ** Scalars *)

(** What the code needs of float64: [0], [1], [-1] (the values of
    [np.sign]), [+], [*] (for [np.matmul]) and the comparisons.  The laws are
    those facts of IEEE 754 comparison on which [np.sign(x) >= 0] depends;
    they hold with NaN present. *)
Class Scalar (R : Type) : Type := {
  zero : R;
  one : R;
  minus_one : R;
  add : R → R → R;
  mul : R → R → R;
  ltb : R → R → bool;
  eqb : R → R → bool;
  zero_lt_one : ltb zero one = true;
  minus_one_not_pos : ltb zero minus_one = false;
  minus_one_not_zero : eqb minus_one zero = false;
  neg_not_zero : ∀ x, ltb x zero = true → eqb x zero = false;
  zero_eq_zero : eqb zero zero = true
}.

(** [x >= y] on floats is [x > y or x == y]. *)
Definition geb {R} `{Scalar R} (x y : R) : bool := ltb y x || eqb x y.

#[export] Instance Z_scalar : Scalar Z := {|
  zero := 0; one := 1; minus_one := -1;
  add := Z.add; mul := Z.mul;
  ltb := Z.ltb; eqb := Z.eqb;
  zero_lt_one := eq_refl;
  minus_one_not_pos := eq_refl;
  minus_one_not_zero := eq_refl;
  neg_not_zero := ltac:(intros x Hx; apply Z.ltb_lt in Hx; apply Z.eqb_neq; lia);
  zero_eq_zero := eq_refl
|}.

(** ** Arrays *)

Record ndarray2 (A : Type) : Type := Array2 {
  rows2 : nat;
  cols2 : nat;
  at2 : nat → nat → A
}.
Arguments Array2 {A} _ _ _.
Arguments rows2 {A} _.
Arguments cols2 {A} _.
Arguments at2 {A} _ _ _.

Record ndarray3 (A : Type) : Type := Array3 {
  dim0 : nat;
  dim1 : nat;
  dim2 : nat;
  at3 : nat → nat → nat → A
}.
Arguments Array3 {A} _ _ _ _.
Arguments dim0 {A} _.
Arguments dim1 {A} _.
Arguments dim2 {A} _.
Arguments at3 {A} _ _ _ _.

(** A 2-D array given by its rows; [cols] is kept apart so that an array
    without rows still has a width. *)
Definition array_of_rows {A} (d : A) (cols : nat) (l : list (list A)) : ndarray2 A :=
  Array2 (length l) cols (λ i j, nth j (nth i l []) d).

(** [list(a)]: the rows of a 2-D array. *)
Definition rows_of {A} (a : ndarray2 A) : list (list A) :=
  map (λ i, map (at2 a i) (seq 0 (cols2 a))) (seq 0 (rows2 a)).

(** [enumerate(l)]. *)
Definition enumerate {A} (l : list A) : list (nat * A) :=
  combine (seq 0 (length l)) l.

(** int64 wrap-around. *)
Definition wrap64 (z : Z) : Z := (z + 2 ^ 63) mod 2 ^ 64 - 2 ^ 63.

Module np.

(** [a.T] *)
Definition T {A} (a : ndarray2 A) : ndarray2 A :=
  Array2 (cols2 a) (rows2 a) (λ i j, at2 a j i).

(** [np.repeat(vectors[np.newaxis, :, :], k, axis=0)] *)
Definition repeat_newaxis {A} (vectors : ndarray2 A) (k : nat) : ndarray3 A :=
  Array3 k (rows2 vectors) (cols2 vectors) (λ _ n d, at2 vectors n d).

Section scalar.
Context {R : Type} `{Scalar R}.

(** [np.matmul] on two stacks of matrices: the stacks have the same
    length here, the inner extents have to agree.  An entry is the sum of
    its products taken along the summed axis from index 0 on; the order in
    which a BLAS adds them, which may depend on the number of rows, is
    idealised to this one. *)
Definition matmul (X Y : ndarray3 R) : result (ndarray3 R) :=
  if decide (dim0 X = dim0 Y ∧ dim2 X = dim1 Y) then
    Ok (Array3 (dim0 X) (dim1 X) (dim2 Y)
          (λ u n p, fold_left (λ acc d, add acc (mul (at3 X u n d) (at3 Y u d p)))
                      (seq 0 (dim2 X)) zero))
  else Err ValueError_matmul_core_dimension.

(** [np.sign] on floats: [x > 0 ? 1 : (x < 0 ? -1 : (x == 0 ? 0 : x))]. *)
Definition sign_scalar (x : R) : R :=
  if ltb zero x then one
  else if ltb x zero then minus_one
  else if eqb x zero then zero
  else x.

Definition sign (a : ndarray3 R) : ndarray3 R :=
  Array3 (dim0 a) (dim1 a) (dim2 a) (λ u n p, sign_scalar (at3 a u n p)).

(** [(a >= 0).astype(int)] *)
Definition nonnegative_as_int (a : ndarray3 R) : ndarray3 Z :=
  Array3 (dim0 a) (dim1 a) (dim2 a)
    (λ u n p, if geb (at3 a u n p) zero then 1 else 0).
End scalar.

(** [np.arange(k)] *)
Definition arange (k : nat) : list Z := map Z.of_nat (seq 0 k).

(** [np.power(2, exponents)] on int64. *)
Definition power2 (exponents : list Z) : list Z :=
  map (λ e, wrap64 (2 ^ e)) exponents.

(** [weights * a]: a 1-D array broadcast along the last axis of [a]. *)
Definition mul_last_axis (weights : list Z) (a : ndarray3 Z) : ndarray3 Z :=
  Array3 (dim0 a) (dim1 a) (dim2 a)
    (λ u n p, wrap64 (nth p weights 0 * at3 a u n p)).

(** [np.sum(a, axis=2)] on int64. *)
Definition sum_axis2 (a : ndarray3 Z) : ndarray2 Z :=
  Array2 (dim0 a) (dim1 a)
    (λ u n, fold_left (λ acc p, wrap64 (acc + at3 a u n p)) (seq 0 (dim2 a)) 0).

(** The result of [np.squeeze] on a 2-D array: every axis of extent 1
    goes, so a [(1, 1)] array becomes 0-dimensional. *)
Inductive squeezed (A : Type) : Type :=
  | Squeezed0 (x : A)
  | Squeezed1 (l : list A)
  | Squeezed2 (a : ndarray2 A).
Arguments Squeezed0 {A} x.
Arguments Squeezed1 {A} l.
Arguments Squeezed2 {A} a.

Definition squeeze {A} (a : ndarray2 A) : squeezed A :=
  match decide (rows2 a = 1%nat), decide (cols2 a = 1%nat) with
  | left _, left _ => Squeezed0 (at2 a 0%nat 0%nat)
  | left _, right _ => Squeezed1 (map (at2 a 0%nat) (seq 0 (cols2 a)))
  | right _, left _ => Squeezed1 (map (λ u, at2 a u 0%nat) (seq 0 (rows2 a)))
  | right _, right _ => Squeezed2 a
  end.

End np.

(** ** Python containers *)

(** [defaultdict(lambda: defaultdict(list))]: universe, then hash value, to
    the list of sample indices. *)
Abbreviation index_map := (gmap nat (gmap Z (list nat))).

(** [m[universe_id]] on the outer [defaultdict]: a missing key is first
    bound to an empty inner dictionary. *)
Definition getitem_universe (m : index_map) (universe_id : nat)
  : gmap Z (list nat) * index_map :=
  let inner := default ∅ (m !! universe_id) in
  (inner, <[universe_id := inner]> m).

(** [m[universe_id][h]]: both lookups bind a missing key to its default;
    the outcome is the list found and the dictionary afterwards. *)
Definition getitem_bucket (m : index_map) (universe_id : nat) (h : Z)
  : list nat * index_map :=
  let '(inner, m1) := getitem_universe m universe_id in
  let l := default [] (inner !! h) in
  (l, <[universe_id := <[h := l]> inner]> m1).

(** [m[universe_id][h].append(i)] *)
Definition append_index (m : index_map) (universe_id : nat) (h : Z) (i : nat)
  : index_map :=
  let '(l, m1) := getitem_bucket m universe_id h in
  <[universe_id := <[h := l ++ [i]]> (default ∅ (m1 !! universe_id))]> m1.

(** The list a reader sees at [(universe_id, h)], missing keys read as the
    empty list. *)
Definition bucket (m : index_map) (universe_id : nat) (h : Z) : list nat :=
  default [] (default ∅ (m !! universe_id) !! h).

(** The inner dictionary a reader finds at a universe, a missing one read
    as empty. *)
Definition inner (m : index_map) (u : nat) : gmap Z (list nat) :=
  default ∅ (m !! u).

(** The dictionary with list [l] written at [(u, h)]. *)
Definition store (m : index_map) (u : nat) (h : Z) (l : list nat) : index_map :=
  <[u := <[h := l]> (inner m u)]> m.

(** The dictionary after [m[u][h]] has been read: a missing key is now
    bound to the empty list. *)
Definition touch (m : index_map) (u : nat) (h : Z) : index_map :=
  store m u h (bucket m u h).

(** [m'] reads as [m] does: the same list at every pair of keys, every
    stored list of [m] still stored under its keys, no universe removed. *)
Definition reads_preserved (m m' : index_map) : Prop :=
  (∀ u h, bucket m' u h = bucket m u h)
  ∧ (∀ u h l, inner m u !! h = Some l → inner m' u !! h = Some l)
  ∧ (∀ u, is_Some (m !! u) → is_Some (m' !! u)).

Module collections.

(** A [Counter] keeps its keys in the order of their first insertion. *)
Fixpoint count_one (c : list (nat * nat)) (x : nat) : list (nat * nat) :=
  match c with
  | [] => [(x, 1%nat)]
  | (y, k) :: c' =>
      if decide (x = y) then (y, S k) :: c' else (y, k) :: count_one c' x
  end.

(** [Counter(l)] *)
Definition Counter (l : list nat) : list (nat * nat) :=
  fold_left count_one l [].

(** [sorted(items, key=itemgetter(1), reverse=True)]: a stable sort,
    larger counts first, equal counts in their order in [items]. *)
Fixpoint insert_by_count (x : nat * nat) (s : list (nat * nat)) : list (nat * nat) :=
  match s with
  | [] => [x]
  | y :: s' =>
      if (x.2 <? y.2)%nat then y :: insert_by_count x s' else x :: y :: s'
  end.

Definition sorted_by_count (items : list (nat * nat)) : list (nat * nat) :=
  foldr insert_by_count [] items.

(** [c.most_common(n)], that is [heapq.nlargest(n, c.items(), key=itemgetter(1))],
    which is [sorted(...)[:n]] for [n > 0] and empty otherwise. *)
Definition most_common (c : list (nat * nat)) (n : Z) : list (nat * nat) :=
  take (Z.to_nat n) (sorted_by_count c).

End collections.

(** ** float64 and its logarithm *)

(** The double nearest to the integer [m >= 1], ties going to the even
    significand of 53 bits: the conversion of an int64 or uint64 to
    float64.  Integers below [2^53] are kept. *)
Definition float64_of_int (m : Z) : Z :=
  let e := Z.log2 m in
  if e <=? 52 then m
  else
    let ulp := 2 ^ (e - 52) in
    let q := m / ulp in
    let r := m mod ulp in
    if (ulp <? 2 * r) || ((2 * r =? ulp) && Z.odd q) then (q + 1) * ulp
    else q * ulp.

(** [math.floor(np.log2(x))] for a double [x] that holds an integer
    [x >= 1].  [np.log2] is the [log2] of the C library, which differs
    between platforms in the last bit, so it is an interface.  Its laws:
    the logarithm of a power of two is exact; between two powers of two
    the result is between their exponents (it may reach the upper one by
    rounding); and below [2^32], where the logarithm is more than
    [2^-32] away from the next integer, it does not reach it. *)
Class Log2 : Type := {
  floor_of_log2 : Z → Z;
  log2_power_of_two : ∀ k, 0 ≤ k → floor_of_log2 (2 ^ k) = k;
  log2_enclosed : ∀ x, 1 ≤ x → Z.log2 x ≤ floor_of_log2 x ≤ Z.log2 x + 1;
  log2_below_2_32 : ∀ x, 1 ≤ x < 2 ^ 32 → floor_of_log2 x = Z.log2 x
}.

(** [ln(2) * 2^53], rounded down. *)
Definition ln2_scaled : Z := 6243314768165359.

(** The floor of the logarithm rounded to the nearest double.  For
    [2^k < x < 2^(k+1)] the logarithm is [k + 1 - t / ln(2)] to first
    order, with [t = (2^(k+1) - x) / 2^(k+1)], and the doubles below
    [k + 1] are [2^(log2(k) - 52)] apart: the logarithm rounds to [k + 1]
    when [t / ln(2)] is less than half of that. *)
Definition floor_rounded_log2 (x : Z) : Z :=
  let k := Z.log2 x in
  if x =? 2 ^ k then k
  else if (2 ^ (k + 1) - x) * 2 ^ 105 <? ln2_scaled * 2 ^ (k + Z.log2 k)
       then k + 1 else k.

#[export, refine] Instance rounded_log2 : Log2 :=
  { floor_of_log2 := floor_rounded_log2 }.
Proof.
  - intros k Hk. unfold floor_rounded_log2. cbv zeta.
    rewrite Z.log2_pow2 by done. by rewrite Z.eqb_refl.
  - intros x Hx. unfold floor_rounded_log2. cbv zeta.
    destruct (x =? 2 ^ Z.log2 x); [lia|]. destruct (_ <? _); lia.
  - intros x Hx. unfold floor_rounded_log2. cbv zeta.
    destruct (x =? 2 ^ Z.log2 x); [done|].
    destruct (Z.ltb_spec ((2 ^ (Z.log2 x + 1) - x) * 2 ^ 105)
                (ln2_scaled * 2 ^ (Z.log2 x + Z.log2 (Z.log2 x)))) as [Hlt|];
      [exfalso|done].
    pose proof (Z.log2_nonneg x) as Hk0.
    assert (Z.log2 x < 32) as Hk by (apply Z.log2_lt_pow2; lia).
    pose proof (Z.log2_nonneg (Z.log2 x)) as Hkk0.
    assert (Z.log2 (Z.log2 x) ≤ 4) as Hkk.
    { destruct (decide (Z.log2 x = 0)) as [->|]; [done|].
      assert (Z.log2 (Z.log2 x) < 5); [apply Z.log2_lt_pow2; lia|lia]. }
    assert (2 ^ (Z.log2 x + Z.log2 (Z.log2 x)) ≤ 2 ^ 35) as Hpow
      by (apply Z.pow_le_mono_r; lia).
    pose proof (Z.log2_spec x ltac:(lia)) as [_ Hup].
    rewrite <- Z.add_1_r in Hup.
    unfold ln2_scaled in Hlt. nia.
Defined.

(** ** The class [LSH] *)

Section LSH.
Context {R : Type} `{Scalar R} `{Log2}.

Record LSH : Type := {
  n_buckets : Z;
  n_universes : Z;
  planes : ndarray3 R;
  hash_to_index_map : option index_map
}.

Definition set_hash_to_index_map (self : LSH) (m : option index_map) : LSH :=
  {| n_buckets := n_buckets self;
     n_universes := n_universes self;
     planes := planes self;
     hash_to_index_map := m |}.

(** [math.floor(np.log2(max_buckets))].  An [int] outside the range of
    int64 and uint64 becomes an object array, which [np.log2] refuses;
    a negative one gives NaN and zero gives [-inf], which [math.floor]
    refuses.  Any other is converted to float64 before the logarithm is
    taken. *)
Definition floor_log2 (max_buckets : Z) : result Z :=
  if (max_buckets <? - 2 ^ 63) || (2 ^ 64 <=? max_buckets) then
    Err TypeError_ufunc_log2_object
  else if max_buckets <? 0 then Err ValueError_float_nan_to_int
  else if max_buckets =? 0 then Err OverflowError_float_inf_to_int
  else Ok (floor_of_log2 (float64_of_int max_buckets)).

(** The largest [npy_intp]. *)
Definition npy_intp_max : Z := 2 ^ 63 - 1.

(** The size in bytes of a new array, as numpy computes it when it checks
    a shape: extents that are 0 are skipped, a negative extent is refused,
    and so is a product that overflows [npy_intp]. *)
Fixpoint array_nbytes (shape : list Z) (nbytes : Z) : option Z :=
  match shape with
  | [] => Some nbytes
  | dim :: shape' =>
      if dim =? 0 then array_nbytes shape' nbytes
      else if dim <? 0 then None
      else if npy_intp_max <? nbytes * dim then None
      else array_nbytes shape' (nbytes * dim)
  end.

(** [np.random.normal(size=(a, b, c))], the entries given by [normal].
    An extent must fit [npy_intp], and the array of 8-byte entries must
    pass the check of its size. *)
Definition random_normal (normal : nat → nat → nat → R) (a b c : Z)
  : result (ndarray3 R) :=
  if existsb (λ dim, (dim <? - 2 ^ 63) || (npy_intp_max <? dim)) [a; b; c]
  then Err ValueError_array_shape
  else
    match array_nbytes [a; b; c] 8 with
    | None => Err ValueError_array_shape
    | Some _ => Ok (Array3 (Z.to_nat a) (Z.to_nat b) (Z.to_nat c) normal)
    end.

(** [LSH(vector_dims, max_buckets, n_universes)] *)
Definition __init__ (normal : nat → nat → nat → R)
    (vector_dims max_buckets n_universes : Z) : result LSH :=
  match floor_log2 max_buckets with
  | Err e => Err e
  | Ok n_planes =>
      match random_normal normal n_universes vector_dims n_planes with
      | Err e => Err e
      | Ok planes =>
          Ok {| n_buckets := 2 ^ n_planes;
                n_universes := n_universes;
                planes := planes;
                hash_to_index_map := None |}
      end
  end.

(** [self.get_hash_values(vectors)], for a 2-D array [vectors], the only
    ones the indexing [vectors[np.newaxis, :, :]] accepts. *)
Definition get_hash_values (self : LSH) (vectors : ndarray2 R)
  : result (ndarray2 Z) :=
  let vectors_expanded := np.repeat_newaxis vectors (dim0 (planes self)) in
  match np.matmul vectors_expanded (planes self) with
  | Err e => Err e
  | Ok dot_product =>
      let sign_of_dot_product := np.sign dot_product in
      let is_dot_product_nonnegative :=
        np.nonnegative_as_int sign_of_dot_product in
      let binary_exponents := np.arange (dim2 (planes self)) in
      let hash_values :=
        np.sum_axis2
          (np.mul_last_axis (np.power2 binary_exponents)
             is_dot_product_nonnegative) in
      Ok hash_values
  end.

(** The two loops of [make_hash_table] over [hash_values.T]. *)
Definition fill_hash_table (hash_values : ndarray2 Z) (m : index_map) : index_map :=
  fold_left
    (λ m '(i, sample_hashes),
       fold_left
         (λ m '(universe_id, sample_hash_in_universe),
            append_index m universe_id sample_hash_in_universe i)
         (enumerate sample_hashes) m)
    (enumerate (rows_of (np.T hash_values))) m.

(** [self.make_hash_table(vectors)].  The dictionary is replaced before
    the hashes are computed, so it is empty after a failed call. *)
Definition make_hash_table (self : LSH) (vectors : ndarray2 R)
  : result unit * LSH :=
  let self := set_hash_to_index_map self (Some ∅) in
  match get_hash_values self vectors with
  | Err e => (Err e, self)
  | Ok hash_values =>
      (Ok (), set_hash_to_index_map self (Some (fill_hash_table hash_values ∅)))
  end.

(** What iterating over the squeezed hash values yields: int64 scalars
    from a 1-D array, rows from a 2-D one. *)
Inductive item : Type :=
  | Scalar_item (h : Z)
  | Row_item (row : list Z).

Definition iterate (a : np.squeezed Z) : result (list item) :=
  match a with
  | np.Squeezed0 _ => Err TypeError_iteration_over_0d
  | np.Squeezed1 l => Ok (map Scalar_item l)
  | np.Squeezed2 a => Ok (map Row_item (rows_of a))
  end.

(** The loop of [get_similar_samples_indices]: the list accumulated so
    far and the dictionary are threaded; the loop stops at the first
    exception. *)
Fixpoint collect (items : list (nat * item)) (similar_indices : list nat)
    (d : option index_map) : result (list nat) * option index_map :=
  match items with
  | [] => (Ok similar_indices, d)
  | (universe_id, hash_value) :: items' =>
      match d with
      | None => (Err TypeError_NoneType_subscript, d)
      | Some m =>
          match hash_value with
          | Row_item _ =>
              (Err TypeError_unhashable_ndarray,
               Some (getitem_universe m universe_id).2)
          | Scalar_item h =>
              let '(l, m') := getitem_bucket m universe_id h in
              collect items' (similar_indices ++ l) (Some m')
          end
      end
  end.

(** [self.get_similar_samples_indices(vector, n_most_common)] *)
Definition get_similar_samples_indices (self : LSH) (vector : ndarray2 R)
    (n_most_common : Z) : result (list nat) * LSH :=
  match get_hash_values self vector with
  | Err e => (Err e, self)
  | Ok hash_values =>
      let hash_values := np.squeeze hash_values in
      match iterate hash_values with
      | Err e => (Err e, self)
      | Ok items =>
          match collect (enumerate items) [] (hash_to_index_map self) with
          | (Err e, d) => (Err e, set_hash_to_index_map self d)
          | (Ok similar_indices, d) =>
              let counted_indices := collections.Counter similar_indices in
              let most_common :=
                collections.most_common counted_indices n_most_common in
              (Ok (map fst most_common), set_hash_to_index_map self d)
          end
      end
  end.

End LSH.

Arguments LSH R : clear implicits.

(** ** Notions used in the statements *)

Section notions.
Context {R : Type} `{Scalar R} `{Log2}.

(** The entry [(u, n, p)] of [dot_product]: vector [n] against plane [p]
    of universe [u]. *)
Definition dot_product_entry (self : LSH R) (vectors : ndarray2 R) (u n p : nat) : R :=
  fold_left (λ acc d, add acc (mul (at2 vectors n d) (at3 (planes self) u d p)))
    (seq 0 (cols2 vectors)) zero.

(** Following the spec: the bit is 1 if the value is [>= 0], else 0. *)
Definition spec_bit (self : LSH R) (vectors : ndarray2 R) (u n p : nat) : bool :=
  geb (dot_product_entry self vectors u n p) zero.

(** Following the spec: bit [i] contributes [2^i]. *)
Fixpoint spec_pack (bits : nat → bool) (k : nat) : Z :=
  match k with
  | O => 0
  | S k' => spec_pack bits k' + (if bits k' then 2 ^ Z.of_nat k' else 0)
  end.

(** What the constructor establishes for [max_buckets < 2^63] and no
    method changes: at most 63 planes, [n_buckets = 2 ^ n_planes], one
    slice of planes per universe. *)
Definition well_formed (self : LSH R) : Prop :=
  (dim2 (planes self) ≤ 63)%nat
  ∧ n_buckets self = 2 ^ Z.of_nat (dim2 (planes self))
  ∧ n_universes self = Z.of_nat (dim0 (planes self)).

(** An extent as the check of the size of an array counts it. *)
Definition counted (dim : Z) : Z := if dim =? 0 then 1 else dim.

(** The shapes [(a, b, c)] of float64 that numpy accepts: no negative
    extent, and at most [2^63 - 1] bytes, extents that are 0 left out of
    the product. *)
Definition array_fits (a b c : Z) : Prop :=
  0 ≤ a ∧ 0 ≤ b ∧ 0 ≤ c
  ∧ 8 * counted a * counted b * counted c ≤ 2 ^ 63 - 1.

(** The lists stored for one universe partition [{0, ..., N-1}]: every
    index below [N] is in exactly one list, once, and nothing else is
    stored; no stored list is empty. *)
Definition partition_of (N : nat) (b : gmap Z (list nat)) : Prop :=
  (∀ i, (i < N)%nat →
     ∃ h l, b !! h = Some l ∧ count_occ Nat.eq_dec l i = 1%nat
            ∧ ∀ h' l', b !! h' = Some l' → i ∈ l' → h' = h)
  ∧ (∀ h l i, b !! h = Some l → i ∈ l → (i < N)%nat)
  ∧ (∀ h l, b !! h = Some l → l ≠ []).

(** The objects on which [make_hash_table] has succeeded over [N]
    vectors, and whatever later queries make of them. *)
Inductive built (N : nat) : LSH R → Prop :=
  | built_make self vectors self' :
      rows2 vectors = N →
      make_hash_table self vectors = (Ok (), self') →
      built N self'
  | built_query self vector n_most_common :
      built N self →
      built N (get_similar_samples_indices self vector n_most_common).2.

(** The objects the class can produce from a given [max_buckets]:
    constructed, then any sequence of calls of the two methods that change
    or read the table. *)
Inductive reachable (max_buckets : Z) : LSH R → Prop :=
  | reachable_init normal vector_dims n_universes self :
      __init__ normal vector_dims max_buckets n_universes = Ok self →
      reachable max_buckets self
  | reachable_make self vectors :
      reachable max_buckets self →
      reachable max_buckets (make_hash_table self vectors).2
  | reachable_query self vector n_most_common :
      reachable max_buckets self →
      reachable max_buckets
        (get_similar_samples_indices self vector n_most_common).2.

End notions.

(** Following the spec: the distinct elements of a list in the order of
    their first occurrence. *)
Definition first_occurrences (l : list nat) : list nat :=
  fold_left (λ seen x, if decide (x ∈ seen) then seen else seen ++ [x]) l [].

(** The count a counter holds for [x], 0 if [x] is not a key. *)
Fixpoint votes (c : list (nat * nat)) (x : nat) : nat :=
  match c with
  | [] => 0
  | (y, k) :: c' => if decide (x = y) then k else votes c' x
  end.

(** Larger counts first. *)
Definition by_count_desc (a b : nat * nat) : Prop := (b.2 ≤ a.2)%nat.

(** The number of universes, among the first [U], in which sample [x] of
    the corpus has the hash value of the query. *)
Definition agreement (corpus_hashes query_hashes : ndarray2 Z) (U x : nat) : nat :=
  length (filter (λ u, at2 corpus_hashes u x = at2 query_hashes u 0%nat) (seq 0 U)).

(** ** The statements after the class *)

Section main.
Context {R : Type} `{Scalar R} `{Log2}.

(** [np.random.rand(a, b)], the entries given by [entries]. *)
Definition random_rand (entries : nat → nat → R) (a b : nat) : ndarray2 R :=
  Array2 a b entries.

(** Lines 122 to 132 of [lsh_parallel.py]: an object with the default
    [max_buckets = 1024] and [n_universes = 25], the hash values of one and
    of 13 random vectors, the table of 11130 random vectors and a query
    with the default [n_most_common = 5].  The outcome is what the three
    [print] calls are given, or the exception that ends the run. *)
Definition main (normal : nat → nat → nat → R)
    (rand1 rand2 rand3 rand4 : nat → nat → R)
  : result (ndarray2 Z * ndarray2 Z * list nat) :=
  match __init__ normal 300 1024 25 with
  | Err e => Err e
  | Ok lsh =>
      let vec := random_rand rand1 1 300 in
      match get_hash_values lsh vec with
      | Err e => Err e
      | Ok printed1 =>
          let vec := random_rand rand2 13 300 in
          match get_hash_values lsh vec with
          | Err e => Err e
          | Ok printed2 =>
              let vec := random_rand rand3 (Z.to_nat 11130) 300 in
              match make_hash_table lsh vec with
              | (Err e, _) => Err e
              | (Ok _, lsh) =>
                  match get_similar_samples_indices lsh
                          (random_rand rand4 1 300) 5 with
                  | (Err e, _) => Err e
                  | (Ok sim, _) => Ok (printed1, printed2, sim)
                  end
              end
          end
      end
  end.

End main.

(** ** Minimum edit distance ([levenshtein.py]) *)

(** [np.zeros((r, c), dtype=int)] *)
Definition np_zeros (r c : nat) : ndarray2 Z := Array2 r c (λ _ _, 0).

(** [a[i, j] = v] *)
Definition set2 {A} (a : ndarray2 A) (i j : nat) (v : A) : ndarray2 A :=
  Array2 (rows2 a) (cols2 a)
    (λ i' j', if decide (i' = i ∧ j' = j) then v else at2 a i' j').

(** [range(1, n + 1)] *)
Definition range_from_1 (n : nat) : list nat := seq 1 n.

(** [min([a, b, c])] *)
Definition min3 (a b c : Z) : Z := Z.min a (Z.min b c).

Section min_edit_distance.
Context {A : Type} `{EqDecision A}.

(** The first loop: column 0, from row 1 on.  An entry of the table is an
    int64; adding a cost to it wraps around. *)
Definition fill_column_0 (delete_cost : Z) (source_length : nat)
    (cost_table : ndarray2 Z) : ndarray2 Z :=
  fold_left
    (λ cost_table row,
       set2 cost_table row 0
         (wrap64 (at2 cost_table (row - 1) 0%nat + delete_cost)))
    (range_from_1 source_length) cost_table.

(** The second loop: row 0, from column 1 on. *)
Definition fill_row_0 (insert_cost : Z) (target_length : nat)
    (cost_table : ndarray2 Z) : ndarray2 Z :=
  fold_left
    (λ cost_table col,
       set2 cost_table 0 col
         (wrap64 (at2 cost_table 0%nat (col - 1) + insert_cost)))
    (range_from_1 target_length) cost_table.

(** The body of the nested loops. *)
Definition fill_cell (source target : list A)
    (insert_cost delete_cost replace_cost : Z)
    (cost_table : ndarray2 Z) (row col : nat) : ndarray2 Z :=
  let temp_replace_cost :=
    if decide (source !! (row - 1)%nat = target !! (col - 1)%nat) then 0
    else replace_cost in
  set2 cost_table row col
    (min3 (wrap64 (at2 cost_table (row - 1) col + delete_cost))
          (wrap64 (at2 cost_table row (col - 1) + insert_cost))
          (wrap64 (at2 cost_table (row - 1) (col - 1) + temp_replace_cost))).

(** [min_edit_distance(source, target, insert_cost, delete_cost,
    replace_cost)], for costs in the range of int64.  The strings are
    lists of characters; the last line reads [cost_table[-1, -1]], the
    entry of the last row and column. *)
Definition min_edit_distance (source target : list A)
    (insert_cost delete_cost replace_cost : Z) : ndarray2 Z * Z :=
  let source_length := length source in
  let target_length := length target in
  let cost_table := np_zeros (source_length + 1) (target_length + 1) in
  let cost_table := fill_column_0 delete_cost source_length cost_table in
  let cost_table := fill_row_0 insert_cost target_length cost_table in
  let cost_table :=
    fold_left
      (λ cost_table row,
         fold_left
           (λ cost_table col,
              fill_cell source target insert_cost delete_cost replace_cost
                cost_table row col)
           (range_from_1 target_length) cost_table)
      (range_from_1 source_length) cost_table in
  let minimum_edit_distance :=
    at2 cost_table (rows2 cost_table - 1) (cols2 cost_table - 1) in
  (cost_table, minimum_edit_distance).

(** The cost of turning the first [i] characters of [source] into the
    first [j] of [target], by the recurrence of Wagner and Fischer on
    unbounded integers. *)
Fixpoint prefix_distance (source target : list A)
    (insert_cost delete_cost replace_cost : Z) (i : nat) : nat → Z :=
  match i with
  | O => λ j, Z.of_nat j * insert_cost
  | S i' =>
      fix on_row (j : nat) : Z :=
        match j with
        | O => Z.of_nat (S i') * delete_cost
        | S j' =>
            min3
              (prefix_distance source target insert_cost delete_cost
                 replace_cost i' (S j') + delete_cost)
              (on_row j' + insert_cost)
              (prefix_distance source target insert_cost delete_cost
                 replace_cost i' j'
               + if decide (source !! i' = target !! j') then 0
                 else replace_cost)
        end
  end.

(** The cells that hold their prefix distance when the nested loops are
    at [(r, c)]: row 0, column 0, the rows above [r] and the cells of row
    [r] left of [c]. *)
Definition filled_to (source target : list A)
    (insert_cost delete_cost replace_cost : Z)
    (cost_table : ndarray2 Z) (r c : nat) : Prop :=
  ∀ i j, (i ≤ length source)%nat → (j ≤ length target)%nat →
    (i < r)%nat ∨ (i = r ∧ j < c)%nat ∨ i = 0%nat ∨ j = 0%nat →
    at2 cost_table i j
    = prefix_distance source target insert_cost delete_cost replace_cost i j.

(** The entry [(i, j)] of the table as the loops compute it, every
    addition in int64: the recurrence of [prefix_distance] with the
    wrap-around. *)
Fixpoint table_entry (source target : list A)
    (insert_cost delete_cost replace_cost : Z) (i : nat) : nat → Z :=
  match i with
  | O =>
      fix on_row (j : nat) : Z :=
        match j with
        | O => 0
        | S j' => wrap64 (on_row j' + insert_cost)
        end
  | S i' =>
      fix on_row (j : nat) : Z :=
        match j with
        | O =>
            wrap64 (table_entry source target insert_cost delete_cost
                      replace_cost i' 0%nat + delete_cost)
        | S j' =>
            min3
              (wrap64 (table_entry source target insert_cost delete_cost
                         replace_cost i' (S j') + delete_cost))
              (wrap64 (on_row j' + insert_cost))
              (wrap64 (table_entry source target insert_cost delete_cost
                         replace_cost i' j'
                       + if decide (source !! i' = target !! j') then 0
                         else replace_cost))
        end
  end.

(** The cells that hold their [table_entry] when the nested loops are at
    [(r, c)]. *)
Definition entries_to (source target : list A)
    (insert_cost delete_cost replace_cost : Z)
    (cost_table : ndarray2 Z) (r c : nat) : Prop :=
  ∀ i j, (i ≤ length source)%nat → (j ≤ length target)%nat →
    (i < r)%nat ∨ (i = r ∧ j < c)%nat ∨ i = 0%nat ∨ j = 0%nat →
    at2 cost_table i j
    = table_entry source target insert_cost delete_cost replace_cost i j.

End min_edit_distance.

(** ** Concrete inputs *)

(** Every drawn entry is 1. *)
Definition all_ones : nat → nat → nat → Z := λ _ _ _, 1.

(** The planes of even universes are 1, those of odd universes -1. *)
Definition by_parity : nat → nat → nat → Z :=
  λ u _ _, if Nat.even u then 1 else -1.

Definition rows (cols : nat) (l : list (list Z)) : ndarray2 Z :=
  array_of_rows 0 cols l.

(** The object after [LSH(vector_dims, max_buckets, n_universes)], or a
    degenerate one if the constructor raises. *)
Definition new_LSH (normal : nat → nat → nat → Z)
    (vector_dims max_buckets n_universes : Z) : LSH Z :=
  match __init__ normal vector_dims max_buckets n_universes with
  | Ok self => self
  | Err _ =>
      {| n_buckets := 0; n_universes := 0;
         planes := Array3 0 0 0 normal; hash_to_index_map := None |}
  end.

(** The characters of a string. *)
Definition chars (s : string) : list Ascii.ascii := String.list_ascii_of_string s.

(** The entries of the dictionary, as association lists. *)
Definition dump (d : option index_map) : option (list (nat * list (Z * list nat))) :=
  (λ m : index_map, (λ '(u, b), (u, map_to_list b)) <$> map_to_list m) <$> d.

(** * Properties *)

(** ** Lists and loops *)

Section loops.
Context {A B C : Type}.

Lemma fold_left_ext_in (f g : A → B → A) (l : list B) (a : A) :
  (∀ acc x, x ∈ l → f acc x = g acc x) → fold_left f l a = fold_left g l a.
Proof.
  revert a. induction l as [|x l IH]; intros a Hfg; [done|]. simpl.
  rewrite Hfg by left. apply IH. intros acc y Hy. apply Hfg. by right.
Qed.

Lemma fold_left_ext (f g : A → B → A) (l : list B) (a : A) :
  (∀ acc x, f acc x = g acc x) → fold_left f l a = fold_left g l a.
Proof. intros Hfg. apply fold_left_ext_in. auto. Qed.

Lemma fold_left_map_list (f : A → C → A) (g : B → C) (l : list B) (a : A) :
  fold_left f (map g l) a = fold_left (λ acc x, f acc (g x)) l a.
Proof. revert a. induction l as [|x l IH]; intros a; [done|]. apply IH. Qed.

Lemma combine_map_self (g : B → C) (l : list B) :
  combine l (map g l) = map (λ x, (x, g x)) l.
Proof. induction l as [|x l IH]; [done|]. simpl. by rewrite IH. Qed.

End loops.

(** [enumerate] of a list computed from its positions. *)
Lemma enumerate_map_seq {C : Type} (g : nat → C) (n : nat) :
  enumerate (map g (seq 0 n)) = map (λ i, (i, g i)) (seq 0 n).
Proof.
  unfold enumerate. rewrite length_map, length_seq. apply combine_map_self.
Qed.

(** ** Hashing *)

Section hashing.
Context {R : Type} `{Scalar R}.
Implicit Types (self : LSH R) (vectors : ndarray2 R).

Lemma geb_sign_scalar (x : R) : geb (np.sign_scalar x) zero = geb x zero.
Proof.
  unfold np.sign_scalar, geb.
  destruct (ltb zero x) eqn:Hpos.
  { by rewrite zero_lt_one. }
  destruct (ltb x zero) eqn:Hneg.
  { by rewrite minus_one_not_pos, minus_one_not_zero, (neg_not_zero x Hneg). }
  destruct (eqb x zero) eqn:Hz.
  { by rewrite zero_eq_zero, orb_true_r. }
  by rewrite Hpos, Hz.
Qed.

Lemma wrap64_small (z : Z) : - 2 ^ 63 ≤ z < 2 ^ 63 → wrap64 z = z.
Proof. intros Hz. unfold wrap64. rewrite Z.mod_small; lia. Qed.

Lemma spec_pack_bounds (bits : nat → bool) (k : nat) :
  0 ≤ spec_pack bits k < 2 ^ Z.of_nat k.
Proof.
  induction k as [|k IH]; simpl spec_pack; [simpl; lia|].
  rewrite Nat2Z.inj_succ, Z.pow_succ_r by lia.
  destruct (bits k); lia.
Qed.

Lemma nth_power2_arange (P p : nat) :
  (p < P)%nat → nth p (np.power2 (np.arange P)) 0 = wrap64 (2 ^ Z.of_nat p).
Proof.
  intros Hp. unfold np.power2, np.arange.
  rewrite map_map.
  rewrite (nth_indep _ 0 ((λ x, wrap64 (2 ^ Z.of_nat x)) 0%nat))
    by (rewrite length_map, length_seq; lia).
  rewrite (map_nth (λ x : nat, wrap64 (2 ^ Z.of_nat x))), seq_nth by lia.
  done.
Qed.

(** The int64 weighted sum of [k ≤ 63] bits never wraps. *)
Lemma sum_bits_int64 (P : nat) (bits : nat → bool) (k : nat) :
  (k ≤ P)%nat → (k ≤ 63)%nat →
  fold_left
    (λ acc p, wrap64 (acc + wrap64 (nth p (np.power2 (np.arange P)) 0
                                     * (if bits p then 1 else 0))))
    (seq 0 k) 0
  = spec_pack bits k.
Proof.
  intros HkP Hk. induction k as [|k IH]; [done|].
  rewrite seq_S, fold_left_app, IH by lia. simpl.
  rewrite nth_power2_arange by lia.
  pose proof (spec_pack_bounds bits k) as Hb.
  assert (0 < 2 ^ Z.of_nat k ≤ 2 ^ 62) as Hpow.
  { split; [apply Z.pow_pos_nonneg; lia|apply Z.pow_le_mono_r; lia]. }
  assert (2 ^ 62 < 2 ^ 63) by (apply Z.pow_lt_mono_r; lia).
  rewrite (wrap64_small (2 ^ Z.of_nat k)) by lia.
  destruct (bits k).
  - rewrite Z.mul_1_r, (wrap64_small (2 ^ Z.of_nat k)) by lia.
    apply wrap64_small. lia.
  - rewrite Z.mul_0_r, (wrap64_small 0) by lia.
    apply wrap64_small. lia.
Qed.

Lemma get_hash_values_Ok self vectors :
  cols2 vectors = dim1 (planes self) →
  ∃ hash_values,
    get_hash_values self vectors = Ok hash_values
    ∧ rows2 hash_values = dim0 (planes self)
    ∧ cols2 hash_values = rows2 vectors
    ∧ ∀ u n,
        at2 hash_values u n
        = fold_left
            (λ acc p,
               wrap64 (acc + wrap64
                 (nth p (np.power2 (np.arange (dim2 (planes self)))) 0
                  * (if spec_bit self vectors u n p then 1 else 0))))
            (seq 0 (dim2 (planes self))) 0.
Proof.
  intros Hcols. unfold get_hash_values, np.matmul. simpl.
  rewrite decide_True by done.
  eexists. split; [done|]. simpl. repeat split.
  intros u n. apply fold_left_ext. intros acc p.
  unfold spec_bit, dot_product_entry. by rewrite geb_sign_scalar.
Qed.

Lemma get_hash_values_Err self vectors :
  cols2 vectors ≠ dim1 (planes self) →
  get_hash_values self vectors = Err ValueError_matmul_core_dimension.
Proof.
  intros Hcols. unfold get_hash_values, np.matmul. simpl.
  rewrite decide_False; [done|]. intros [_ ?]. done.
Qed.

(** The hash depends on the object through its planes only. *)
Lemma get_hash_values_planes self self' vectors :
  planes self' = planes self →
  get_hash_values self' vectors = get_hash_values self vectors.
Proof. intros Hp. unfold get_hash_values. by rewrite Hp. Qed.

End hashing.

(** ** float64 *)

Lemma float64_of_int_below_2_53 (m : Z) : m < 2 ^ 53 → float64_of_int m = m.
Proof.
  intros Hm. unfold float64_of_int. cbv zeta.
  destruct (Z.leb_spec (Z.log2 m) 52) as [|Hlog]; [done|].
  destruct (decide (0 < m)) as [Hpos|Hneg].
  - assert (Z.log2 m < 53); [apply Z.log2_lt_pow2; lia|lia].
  - rewrite Z.log2_nonpos in Hlog; lia.
Qed.

(** The double of an integer of [e + 1] bits is between [2^e] and
    [2^(e+1)]. *)
Lemma float64_of_int_enclosed (m : Z) :
  1 ≤ m → 2 ^ Z.log2 m ≤ float64_of_int m ≤ 2 ^ (Z.log2 m + 1).
Proof.
  intros Hm. pose proof (Z.log2_spec m ltac:(lia)) as Hspec.
  rewrite <- Z.add_1_r in Hspec.
  unfold float64_of_int. cbv zeta.
  destruct (Z.leb_spec (Z.log2 m) 52) as [|Hlog]; [lia|].
  set (ulp := 2 ^ (Z.log2 m - 52)).
  assert (0 < ulp) as Hulp by (apply Z.pow_pos_nonneg; lia).
  assert (2 ^ Z.log2 m = 2 ^ 52 * ulp) as Hlow.
  { unfold ulp. rewrite <- Z.pow_add_r by lia. f_equal. lia. }
  assert (2 ^ (Z.log2 m + 1) = 2 ^ 53 * ulp) as Hhigh.
  { unfold ulp. rewrite <- Z.pow_add_r by lia. f_equal. lia. }
  rewrite Hlow, Hhigh in *.
  pose proof (Z.div_mod m ulp ltac:(lia)) as Hdiv.
  pose proof (Z.mod_pos_bound m ulp Hulp) as Hmod.
  assert (2 ^ 52 ≤ m / ulp < 2 ^ 53) as Hq by nia.
  destruct (_ || _); nia.
Qed.

Lemma float64_of_int_power_of_two (k : Z) :
  0 ≤ k → float64_of_int (2 ^ k) = 2 ^ k.
Proof.
  intros Hk. unfold float64_of_int. cbv zeta. rewrite Z.log2_pow2 by done.
  destruct (Z.leb_spec k 52) as [|Hlog]; [done|].
  set (ulp := 2 ^ (k - 52)).
  assert (0 < ulp) as Hulp by (apply Z.pow_pos_nonneg; lia).
  assert (2 ^ k = 2 ^ 52 * ulp) as ->.
  { unfold ulp. rewrite <- Z.pow_add_r by lia. f_equal. lia. }
  rewrite Z.div_mul, Z.mod_mul by lia.
  destruct (Z.ltb_spec ulp (2 * 0)); [lia|].
  destruct (Z.eqb_spec (2 * 0) ulp); [lia|]. done.
Qed.

(** ** The constructor *)

Section constructor.
Context {R : Type} `{Scalar R} `{Log2}.
Implicit Types (self : LSH R) (normal : nat → nat → nat → R).

(** The number of planes, [math.floor(np.log2(max_buckets))]: the floor of
    the logarithm or one more. *)
Lemma n_planes_enclosed (max_buckets : Z) :
  1 ≤ max_buckets →
  Z.log2 max_buckets ≤ floor_of_log2 (float64_of_int max_buckets)
  ≤ Z.log2 max_buckets + 1.
Proof.
  intros Hm. pose proof (float64_of_int_enclosed max_buckets Hm) as Hx.
  pose proof (Z.log2_nonneg max_buckets) as He.
  set (x := float64_of_int max_buckets) in *.
  destruct (decide (x = 2 ^ (Z.log2 max_buckets + 1))) as [->|Hne].
  - rewrite log2_power_of_two by lia. lia.
  - assert (Z.log2 x = Z.log2 max_buckets) as Hlog.
    { apply Z.log2_unique; [done|]. rewrite <- Z.add_1_r. lia. }
    pose proof (Z.pow_pos_nonneg 2 (Z.log2 max_buckets) ltac:(lia) He).
    pose proof (log2_enclosed x ltac:(lia)). lia.
Qed.

Lemma n_planes_power_of_two (k : Z) :
  0 ≤ k → floor_of_log2 (float64_of_int (2 ^ k)) = k.
Proof.
  intros Hk. rewrite float64_of_int_power_of_two by done.
  by apply log2_power_of_two.
Qed.

Lemma n_planes_below_2_32 (max_buckets : Z) :
  1 ≤ max_buckets < 2 ^ 32 →
  floor_of_log2 (float64_of_int max_buckets) = Z.log2 max_buckets.
Proof.
  intros Hm. rewrite float64_of_int_below_2_53 by lia.
  by apply log2_below_2_32.
Qed.

Lemma log2_below_64 (m : Z) : 1 ≤ m < 2 ^ 64 → 0 ≤ Z.log2 m ≤ 63.
Proof.
  intros Hm. split; [apply Z.log2_nonneg|].
  assert (Z.log2 m < 64); [|lia]. apply Z.log2_lt_pow2; lia.
Qed.

Lemma floor_log2_Ok (max_buckets : Z) :
  1 ≤ max_buckets < 2 ^ 64 →
  floor_log2 max_buckets = Ok (floor_of_log2 (float64_of_int max_buckets)).
Proof.
  intros Hm. unfold floor_log2.
  destruct (Z.ltb_spec max_buckets (- 2 ^ 63)); [lia|].
  destruct (Z.leb_spec (2 ^ 64) max_buckets); [lia|]. simpl.
  destruct (Z.ltb_spec max_buckets 0); [lia|].
  destruct (Z.eqb_spec max_buckets 0); [lia|]. done.
Qed.

(** What [math.floor(np.log2(max_buckets))] raises. *)
Lemma floor_log2_Err (max_buckets : Z) :
  ¬ 1 ≤ max_buckets < 2 ^ 64 →
  floor_log2 max_buckets
  = Err (if decide (max_buckets < - 2 ^ 63 ∨ 2 ^ 64 ≤ max_buckets)
         then TypeError_ufunc_log2_object
         else if decide (max_buckets < 0) then ValueError_float_nan_to_int
         else OverflowError_float_inf_to_int).
Proof.
  intros Hm. unfold floor_log2.
  destruct (Z.ltb_spec max_buckets (- 2 ^ 63));
    [rewrite decide_True by lia; done|].
  destruct (Z.leb_spec (2 ^ 64) max_buckets);
    [rewrite decide_True by lia; done|].
  rewrite decide_False by lia. cbn [orb].
  destruct (Z.ltb_spec max_buckets 0);
    [rewrite decide_True by lia; done|].
  rewrite decide_False by lia.
  destruct (Z.eqb_spec max_buckets 0); [done|lia].
Qed.

Lemma counted_bounds (dim : Z) : 0 ≤ dim → 1 ≤ counted dim ∧ dim ≤ counted dim.
Proof. intros Hd. unfold counted. destruct (Z.eqb_spec dim 0); lia. Qed.

Lemma counted_cases (dim : Z) :
  ((dim =? 0) = true ∧ counted dim = 1)
  ∨ ((dim =? 0) = false ∧ dim ≠ 0 ∧ counted dim = dim).
Proof. unfold counted. destruct (Z.eqb_spec dim 0); auto. Qed.

Lemma random_normal_Ok normal (a b c : Z) :
  array_fits a b c →
  random_normal normal a b c
  = Ok (Array3 (Z.to_nat a) (Z.to_nat b) (Z.to_nat c) normal).
Proof.
  intros (Ha & Hb & Hc & Hsize).
  pose proof (counted_bounds a Ha) as Hca.
  pose proof (counted_bounds b Hb) as Hcb.
  pose proof (counted_bounds c Hc) as Hcc.
  assert (8 * counted a ≤ 8 * counted a * counted b) as Hab by nia.
  assert (8 * counted a * counted b ≤ 8 * counted a * counted b * counted c)
    as Habc by nia.
  assert (counted b ≤ counted a * counted b) as Hb' by nia.
  assert (counted c ≤ counted a * counted b * counted c) as Hc' by nia.
  unfold random_normal, npy_intp_max. cbn [existsb].
  destruct (Z.ltb_spec a (- 2 ^ 63)); [lia|].
  destruct (Z.ltb_spec (2 ^ 63 - 1) a); [lia|].
  destruct (Z.ltb_spec b (- 2 ^ 63)); [lia|].
  destruct (Z.ltb_spec (2 ^ 63 - 1) b); [lia|].
  destruct (Z.ltb_spec c (- 2 ^ 63)); [lia|].
  destruct (Z.ltb_spec (2 ^ 63 - 1) c); [lia|].
  cbn [orb array_nbytes]. unfold npy_intp_max.
  destruct (counted_cases a) as [[-> Ea]|(-> & ? & Ea)];
    destruct (counted_cases b) as [[-> Eb]|(-> & ? & Eb)];
    destruct (counted_cases c) as [[-> Ec]|(-> & ? & Ec)];
    rewrite Ea, Eb, Ec in *;
    repeat match goal with
           | |- context [?x <? ?y] => destruct (Z.ltb_spec x y); [lia|]
           end; done.
Qed.

Lemma random_normal_Err normal (a b c : Z) :
  ¬ array_fits a b c →
  random_normal normal a b c = Err ValueError_array_shape.
Proof.
  intros Hfits. unfold random_normal.
  destruct (existsb _ _); [done|].
  destruct (array_nbytes [a; b; c] 8) as [nbytes|] eqn:Hbytes; [|done].
  exfalso. apply Hfits. unfold array_fits.
  cbn [array_nbytes] in Hbytes. unfold npy_intp_max in Hbytes.
  destruct (counted_cases a) as [[Ea ->]|(Ea & ? & ->)];
    destruct (counted_cases b) as [[Eb ->]|(Eb & ? & ->)];
    destruct (counted_cases c) as [[Ec ->]|(Ec & ? & ->)];
    rewrite Ea, Eb, Ec in Hbytes;
    repeat match type of Hbytes with
           | context [?x <? ?y] => destruct (Z.ltb_spec x y); [done|]
           end;
    repeat match goal with
           | E : (_ =? 0) = true |- _ => apply Z.eqb_eq in E
           end; nia.
Qed.

Lemma init_Ok normal (vector_dims max_buckets n_universes : Z) :
  1 ≤ max_buckets < 2 ^ 64 →
  array_fits n_universes vector_dims
    (floor_of_log2 (float64_of_int max_buckets)) →
  __init__ normal vector_dims max_buckets n_universes
  = Ok {| n_buckets := 2 ^ floor_of_log2 (float64_of_int max_buckets);
          n_universes := n_universes;
          planes := Array3 (Z.to_nat n_universes) (Z.to_nat vector_dims)
                      (Z.to_nat (floor_of_log2 (float64_of_int max_buckets)))
                      normal;
          hash_to_index_map := None |}.
Proof.
  intros Hm Hfits. unfold __init__.
  by rewrite floor_log2_Ok, random_normal_Ok.
Qed.

Lemma init_inv normal (vector_dims max_buckets n_universes : Z) self :
  __init__ normal vector_dims max_buckets n_universes = Ok self →
  1 ≤ max_buckets < 2 ^ 64
  ∧ array_fits n_universes vector_dims
      (floor_of_log2 (float64_of_int max_buckets)).
Proof.
  intros Hinit.
  destruct (decide (1 ≤ max_buckets < 2 ^ 64)) as [Hm|Hm].
  - split; [done|].
    destruct (decide (array_fits n_universes vector_dims
                        (floor_of_log2 (float64_of_int max_buckets))))
      as [|Hfits]; [done|].
    unfold __init__ in Hinit.
    by rewrite floor_log2_Ok, random_normal_Err in Hinit.
  - unfold __init__ in Hinit. by rewrite floor_log2_Err in Hinit.
Qed.

(** What the constructor establishes: the floor of the logarithm of
    [max_buckets] or one more planes, [n_buckets = 2 ^ n_planes], one
    slice of planes per universe; so at most 63 planes for
    [max_buckets < 2^63]. *)
Lemma init_planes normal (vector_dims max_buckets universes : Z) self :
  __init__ normal vector_dims max_buckets universes = Ok self →
  1 ≤ max_buckets < 2 ^ 64
  ∧ Z.of_nat (dim2 (planes self)) = floor_of_log2 (float64_of_int max_buckets)
  ∧ n_buckets self = 2 ^ Z.of_nat (dim2 (planes self))
  ∧ n_universes self = Z.of_nat (dim0 (planes self)).
Proof.
  intros Hinit. destruct (init_inv _ _ _ _ _ Hinit) as (Hm & Hfits).
  rewrite init_Ok in Hinit by done. injection Hinit as <-. cbn.
  destruct Hfits as (Hu & Hd & Hp & _). rewrite !Z2Nat.id by lia. done.
Qed.

Lemma init_well_formed normal (vector_dims max_buckets n_universes : Z) self :
  max_buckets < 2 ^ 63 →
  __init__ normal vector_dims max_buckets n_universes = Ok self →
  well_formed self.
Proof.
  intros Hsmall Hinit.
  destruct (init_planes _ _ _ _ _ Hinit) as (Hm & Hp & Hnb & Hu).
  pose proof (n_planes_enclosed max_buckets ltac:(lia)) as Hlog.
  assert (Z.log2 max_buckets < 63) by (apply Z.log2_lt_pow2; lia).
  unfold well_formed. split; [lia|done].
Qed.

End constructor.

(** ** Claims on the constructor *)

(** C2, the claim as written fails: with [max_buckets = 1 < 2] the
    constructor succeeds, with no plane and a single bucket. *)
Lemma C2_max_buckets_1_accepted :
  ∃ self : LSH Z,
    __init__ all_ones 300 1 25 = Ok self
    ∧ n_buckets self = 1 ∧ dim2 (planes self) = 0%nat.
Proof. eexists. split; [reflexivity|]. split; reflexivity. Qed.

(** C2, amended: what the constructor does on every input.  It raises
    the [TypeError] of [np.log2] when [max_buckets] is outside
    [[-2^63, 2^64)], the [ValueError] of [math.floor] when [max_buckets]
    is negative, its [OverflowError] when [max_buckets] is 0, and
    otherwise the [ValueError] of [np.random.normal] when [n_universes]
    or [vector_dims] is negative or the planes, of 8 bytes each, extents
    that are 0 not counted, take more than [2^63 - 1] bytes.  In every
    other case it succeeds, with [n_buckets = 2 ^ n_planes] where
    [n_planes] is [math.floor(np.log2(max_buckets))] as float64 gives it:
    the floor of the logarithm or one more, and the floor itself for
    [max_buckets < 2^32]. *)
Theorem C2_init_outcome {R : Type} `{Scalar R} `{Log2}
    (normal : nat → nat → nat → R) (vector_dims max_buckets n_universes : Z) :
  let n_planes := floor_of_log2 (float64_of_int max_buckets) in
  match __init__ normal vector_dims max_buckets n_universes with
  | Ok self =>
      1 ≤ max_buckets < 2 ^ 64
      ∧ array_fits n_universes vector_dims n_planes
      ∧ Z.of_nat (dim2 (planes self)) = n_planes
      ∧ Z.log2 max_buckets ≤ n_planes ≤ Z.log2 max_buckets + 1
      ∧ (max_buckets < 2 ^ 32 → n_planes = Z.log2 max_buckets)
      ∧ n_buckets self = 2 ^ n_planes
      ∧ hash_to_index_map self = None
  | Err e =>
      (e = TypeError_ufunc_log2_object
       ∧ (max_buckets < - 2 ^ 63 ∨ 2 ^ 64 ≤ max_buckets))
      ∨ (e = ValueError_float_nan_to_int ∧ - 2 ^ 63 ≤ max_buckets < 0)
      ∨ (e = OverflowError_float_inf_to_int ∧ max_buckets = 0)
      ∨ (e = ValueError_array_shape
         ∧ 1 ≤ max_buckets < 2 ^ 64
         ∧ ¬ array_fits n_universes vector_dims n_planes)
  end.
Proof.
  intros n_planes.
  destruct (decide (1 ≤ max_buckets < 2 ^ 64)) as [Hm|Hm].
  - destruct (decide (array_fits n_universes vector_dims n_planes))
      as [Hfits|Hfits].
    + rewrite init_Ok by done. cbn.
      pose proof (n_planes_enclosed max_buckets ltac:(lia)) as Hlog.
      pose proof (Z.log2_nonneg max_buckets).
      fold n_planes in Hlog |- *. rewrite Z2Nat.id by lia.
      split; [done|]. split; [done|]. split; [done|]. split; [done|].
      split; [|done]. intros Hsmall. apply n_planes_below_2_32. lia.
    + unfold __init__. rewrite floor_log2_Ok, random_normal_Err by done.
      right; right; right. done.
  - unfold __init__. rewrite floor_log2_Err by done.
    destruct (decide (max_buckets < - 2 ^ 63 ∨ 2 ^ 64 ≤ max_buckets));
      [left; done|].
    destruct (decide (max_buckets < 0)); [right; left; split; [done|lia]|].
    right; right; left. split; [done|lia].
Qed.

(** C6, the code at [max_buckets = 2^64 - 1] and at [2^49 - 1].  The
    first becomes the double [2^64], whose logarithm is 64 with every
    [log2]: 64 planes and [n_buckets = 2^64].  The logarithm of the
    second, [49 - 2.6e-15], rounds to the double 49: 49 planes and
    [n_buckets = 2^49].  In both [n_buckets] is above [max_buckets], not
    the power of two below it. *)
Theorem C6_n_buckets_above_max_buckets :
  (∀ (R : Type) (log2 : Log2) (normal : nat → nat → nat → R),
     ∃ self : LSH R,
       __init__ normal 1 (2 ^ 64 - 1) 1 = Ok self
       ∧ dim2 (planes self) = 64%nat
       ∧ n_buckets self = 2 ^ 64
       ∧ Z.log2 (2 ^ 64 - 1) = 63
       ∧ 2 ^ 64 - 1 < n_buckets self)
  ∧ ∃ self : LSH Z,
      __init__ all_ones 1 (2 ^ 49 - 1) 1 = Ok self
      ∧ dim2 (planes self) = 49%nat
      ∧ n_buckets self = 2 ^ 49
      ∧ Z.log2 (2 ^ 49 - 1) = 48
      ∧ 2 ^ 49 - 1 < n_buckets self.
Proof.
  split.
  - intros R log2 normal.
    assert (floor_of_log2 (float64_of_int (2 ^ 64 - 1)) = 64) as Hplanes.
    { change (float64_of_int (2 ^ 64 - 1)) with (2 ^ 64).
      by apply log2_power_of_two. }
    eexists. split.
    { apply init_Ok; [lia|]. rewrite Hplanes. unfold array_fits. done. }
    cbn. rewrite Hplanes. done.
  - eexists. split; [reflexivity|]. done.
Qed.

(** ** Claims on [get_hash_values] *)

Section hash_codes.
Context {R : Type} `{Scalar R}.
Implicit Types (self : LSH R) (vectors : ndarray2 R).

Lemma spec_pack_testbit (bits : nat → bool) (k p : nat) :
  (p < k)%nat → Z.testbit (spec_pack bits k) (Z.of_nat p) = bits p.
Proof.
  induction k as [|k IH]; [lia|]. intros Hp. simpl spec_pack.
  pose proof (spec_pack_bounds bits k) as Hb.
  assert (0 < 2 ^ Z.of_nat k) as Hpos by (apply Z.pow_pos_nonneg; lia).
  set (c := if bits k then 1 else 0).
  replace (if bits k then 2 ^ Z.of_nat k else 0) with (c * 2 ^ Z.of_nat k)
    by (unfold c; destruct (bits k); lia).
  destruct (decide (p = k)) as [->|Hne].
  - rewrite Z.testbit_eqb by lia.
    rewrite Z.div_add, Z.div_small by lia.
    unfold c. by destruct (bits k).
  - rewrite <- (Z.mod_pow2_bits_low _ (Z.of_nat k)) by lia.
    rewrite Z.mod_add, Z.mod_small by lia. apply IH. lia.
Qed.

Lemma hash_value_spec_pack self vectors hash_values (u n : nat) :
  (dim2 (planes self) ≤ 63)%nat →
  get_hash_values self vectors = Ok hash_values →
  at2 hash_values u n
  = spec_pack (spec_bit self vectors u n) (dim2 (planes self)).
Proof.
  intros HP Hhash.
  destruct (decide (cols2 vectors = dim1 (planes self))) as [Hcols|Hcols].
  - destruct (get_hash_values_Ok self vectors Hcols) as (hv & Hhv & _ & _ & Hat).
    rewrite Hhash in Hhv. injection Hhv as <-.
    rewrite Hat. by apply sum_bits_int64.
  - by rewrite get_hash_values_Err in Hhash.
Qed.

End hash_codes.

(** On an object with at most 63 planes and [n_buckets = 2 ^ n_planes]
    (a well formed one), [get_hash_values] returns on every batch of the
    right width, and in the array returned the code of vector [n] in
    universe [u] is the sum of [bit p * 2^p] over the planes [p], where
    [bit p] is 1 exactly when the dot product with plane [p] is [>= 0]
    (so also when it is zero); bit [p] of the code is that bit, and the
    code lies in [[0, n_buckets)]. *)
Theorem hash_value_bits {R : Type} `{Scalar R}
    (self : LSH R) (vectors : ndarray2 R) :
  well_formed self →
  cols2 vectors = dim1 (planes self) →
  ∃ hash_values,
    get_hash_values self vectors = Ok hash_values
    ∧ ∀ u n,
        at2 hash_values u n
        = spec_pack (λ p, geb (dot_product_entry self vectors u n p) zero)
            (dim2 (planes self))
        ∧ (∀ p, (p < dim2 (planes self))%nat →
             Z.testbit (at2 hash_values u n) (Z.of_nat p)
             = geb (dot_product_entry self vectors u n p) zero)
        ∧ (∀ p, dot_product_entry self vectors u n p = zero →
             geb (dot_product_entry self vectors u n p) zero = true)
        ∧ 0 ≤ at2 hash_values u n < n_buckets self.
Proof.
  intros (HP & Hnb & _) Hcols.
  destruct (get_hash_values_Ok self vectors Hcols) as (hv & Hhv & _).
  exists hv. split; [done|]. intros u n.
  rewrite (hash_value_spec_pack self vectors hv u n HP Hhv).
  split; [done|]. split; [|split].
  - intros p Hp. by apply spec_pack_testbit.
  - intros p ->. unfold geb. by rewrite zero_eq_zero, orb_true_r.
  - rewrite Hnb. apply spec_pack_bounds.
Qed.

Lemma hash_value_bits_witness :
  let self := new_LSH by_parity 2 4 3 in
  let vectors := rows 2 [[1; 2]; [-1; 0]] in
  well_formed self
  ∧ cols2 vectors = dim1 (planes self)
  ∧ ∃ hash_values,
      get_hash_values self vectors = Ok hash_values
      ∧ rows_of hash_values = [[3; 0]; [0; 3]; [3; 0]]
      ∧ 0 ≤ at2 hash_values 1 0 < n_buckets self.
Proof.
  intros self vectors.
  assert (well_formed self) as Hwf.
  { unfold well_formed. vm_compute. split; [lia|]. split; reflexivity. }
  assert (cols2 vectors = dim1 (planes self)) as Hcols by reflexivity.
  split; [exact Hwf|]. split; [exact Hcols|].
  destruct (hash_value_bits self vectors Hwf Hcols) as (hv & Hhv & Hbits).
  exists hv. split; [exact Hhv|]. split.
  - injection Hhv as <-. reflexivity.
  - apply Hbits.
Defined.

(** C7, the code on an object with 64 planes, which the constructor
    returns for [max_buckets = 2^64 - 1] whatever the [log2] and the
    planes drawn: [np.power(2, 63)] wraps around to [-2^63] in int64, so
    the code of the vector [[0]], whose 64 bits are all 1, is
    [2^63 - 1 - 2^63 = -1]; it is not the sum [2^64 - 1] of the
    [bit p * 2^p] and not in [[0, n_buckets)]. *)
Theorem C7_hash_value_wraps_with_64_planes :
  ∀ (log2 : Log2) (normal : nat → nat → nat → Z),
    ∃ (self : LSH Z) (hash_values : ndarray2 Z),
      __init__ normal 1 (2 ^ 64 - 1) 1 = Ok self
      ∧ dim2 (planes self) = 64%nat
      ∧ n_buckets self = 2 ^ 64
      ∧ get_hash_values self (rows 1 [[0]]) = Ok hash_values
      ∧ rows_of hash_values = [[-1]]
      ∧ (∀ p, spec_bit self (rows 1 [[0]]) 0 0 p = true)
      ∧ spec_pack (spec_bit self (rows 1 [[0]]) 0 0) 64 = 2 ^ 64 - 1
      ∧ ¬ (0 ≤ at2 hash_values 0 0 < n_buckets self).
Proof.
  intros log2 normal.
  assert (floor_of_log2 (float64_of_int (2 ^ 64 - 1)) = 64) as Hplanes.
  { change (float64_of_int (2 ^ 64 - 1)) with (2 ^ 64).
    by apply log2_power_of_two. }
  exists {| n_buckets := 2 ^ 64; n_universes := 1;
            planes := Array3 1 1 64 normal; hash_to_index_map := None |}.
  eexists. split.
  { rewrite init_Ok; [by rewrite Hplanes|lia|].
    rewrite Hplanes. unfold array_fits. done. }
  split; [reflexivity|]. split; [reflexivity|]. split; [reflexivity|].
  split; [vm_compute; reflexivity|]. split; [reflexivity|].
  split; [vm_compute; reflexivity|].
  vm_compute. intros [Hlow _]. by apply Hlow.
Qed.

(** C1, the code at a batch of 2 vectors with 3 universes: the array
    returned has one row per universe and one column per vector, shape
    [(3, 2)], the transpose of the documented [(samples_number,
    n_universes)]. *)
Theorem C1_hash_values_shape_transposed :
  let self := new_LSH by_parity 1 2 3 in
  let vectors := rows 1 [[1]; [-1]] in
  ∃ hash_values,
    get_hash_values self vectors = Ok hash_values
    ∧ (rows2 hash_values, cols2 hash_values) = (3%nat, 2%nat)
    ∧ rows_of hash_values = [[1; 0]; [0; 1]; [1; 0]].
Proof. eexists. split; [reflexivity|]. split; reflexivity. Qed.

(** On every input the shape is [(planes.shape[0], vectors.shape[0])]. *)
Lemma get_hash_values_shape {R : Type} `{Scalar R}
    (self : LSH R) (vectors : ndarray2 R) (hash_values : ndarray2 Z) :
  get_hash_values self vectors = Ok hash_values →
  rows2 hash_values = dim0 (planes self) ∧ cols2 hash_values = rows2 vectors.
Proof.
  intros Hhash.
  destruct (decide (cols2 vectors = dim1 (planes self))) as [Hcols|Hcols].
  - destruct (get_hash_values_Ok self vectors Hcols) as (hv & Hhv & Hr & Hc & _).
    rewrite Hhash in Hhv. by injection Hhv as <-.
  - by rewrite get_hash_values_Err in Hhash.
Qed.

(** ** The dictionary *)

Section dictionary.
Implicit Types (m : index_map) (u : nat) (h : Z) (l : list nat).

Lemma bucket_inner m u h : bucket m u h = default [] (inner m u !! h).
Proof. done. Qed.

Lemma inner_Some_bucket m u h l : inner m u !! h = Some l → bucket m u h = l.
Proof. intros Hl. by rewrite bucket_inner, Hl. Qed.

Lemma bucket_nonempty_inner m u h :
  bucket m u h ≠ [] → inner m u !! h = Some (bucket m u h).
Proof. rewrite bucket_inner. by destruct (inner m u !! h). Qed.

Lemma inner_store m u h l u' h' :
  inner (store m u h l) u' !! h'
  = if decide (u' = u ∧ h' = h) then Some l else inner m u' !! h'.
Proof.
  unfold store, inner at 1.
  destruct (decide (u' = u)) as [->|Hu].
  - rewrite lookup_insert_eq. simpl.
    destruct (decide (h' = h)) as [->|Hh].
    + rewrite lookup_insert_eq. by rewrite decide_True.
    + rewrite lookup_insert_ne by done. rewrite decide_False; [done|]. tauto.
  - rewrite lookup_insert_ne by done. fold (inner m u').
    rewrite decide_False; [done|]. tauto.
Qed.

Lemma store_lookup_ne m u h l u' : u' ≠ u → store m u h l !! u' = m !! u'.
Proof. intros Hu. unfold store. by rewrite lookup_insert_ne. Qed.

Lemma store_lookup_eq m u h l :
  store m u h l !! u = Some (<[h := l]> (inner m u)).
Proof. unfold store. by rewrite lookup_insert_eq. Qed.

Lemma getitem_bucket_touch m u h :
  getitem_bucket m u h = (bucket m u h, touch m u h).
Proof.
  unfold getitem_bucket, getitem_universe, touch, store, bucket, inner.
  by rewrite insert_insert_eq.
Qed.

Lemma append_index_store m u h i :
  append_index m u h i = store m u h (bucket m u h ++ [i]).
Proof.
  unfold append_index. rewrite getitem_bucket_touch. unfold touch.
  rewrite store_lookup_eq. simpl. unfold store.
  by rewrite !insert_insert_eq.
Qed.

(** A lookup that finds its key leaves the dictionary as it is. *)
Lemma touch_present m u b h l :
  m !! u = Some b → b !! h = Some l → touch m u h = m.
Proof.
  intros Hu Hh. unfold touch, store, bucket, inner. rewrite Hu. simpl. rewrite Hh. simpl.
  rewrite (insert_id b) by done. by apply insert_id.
Qed.

Lemma bucket_store m u h l u' h' :
  bucket (store m u h l) u' h'
  = if decide (u' = u ∧ h' = h) then l else bucket m u' h'.
Proof. rewrite !bucket_inner, inner_store. by destruct (decide _). Qed.

Lemma reads_preserved_refl m : reads_preserved m m.
Proof. by repeat split. Qed.

Lemma reads_preserved_trans m1 m2 m3 :
  reads_preserved m1 m2 → reads_preserved m2 m3 → reads_preserved m1 m3.
Proof.
  intros (Hb & Hs & Hu) (Hb' & Hs' & Hu'). split; [|split].
  - intros u h. by rewrite Hb', Hb.
  - intros u h l Hl. by apply Hs', Hs.
  - intros u Hin. by apply Hu', Hu.
Qed.

Lemma reads_preserved_touch m u h : reads_preserved m (touch m u h).
Proof.
  unfold touch. split; [|split].
  - intros u' h'. rewrite bucket_store.
    by destruct (decide _) as [[-> ->]|].
  - intros u' h' l Hl. rewrite inner_store.
    destruct (decide _) as [[-> ->]|]; [|done].
    by rewrite (inner_Some_bucket _ _ _ _ Hl).
  - intros u' Hin. destruct (decide (u' = u)) as [->|Hne].
    + by rewrite store_lookup_eq.
    + by rewrite store_lookup_ne.
Qed.

Lemma inner_getitem_universe m u u' :
  inner (getitem_universe m u).2 u' = inner m u'.
Proof.
  unfold getitem_universe, inner. simpl.
  destruct (decide (u' = u)) as [->|Hne].
  - by rewrite lookup_insert_eq.
  - by rewrite lookup_insert_ne.
Qed.

Lemma reads_preserved_getitem_universe m u :
  reads_preserved m (getitem_universe m u).2.
Proof.
  split; [|split].
  - intros u' h'. by rewrite !bucket_inner, inner_getitem_universe.
  - intros u' h' l. by rewrite inner_getitem_universe.
  - intros u' Hin. unfold getitem_universe. simpl.
    destruct (decide (u' = u)) as [->|Hne].
    + by rewrite lookup_insert_eq.
    + by rewrite lookup_insert_ne.
Qed.

End dictionary.

(** ** Building the table *)

Section build.
Context {R : Type} `{Scalar R}.
Implicit Types (self : LSH R) (m : index_map) (u i : nat) (h : Z).

Lemma fill_hash_table_loops (hash_values : ndarray2 Z) m :
  fill_hash_table hash_values m
  = fold_left
      (λ m i,
         fold_left (λ m u, append_index m u (at2 hash_values u i) i)
           (seq 0 (rows2 hash_values)) m)
      (seq 0 (cols2 hash_values)) m.
Proof.
  unfold fill_hash_table, rows_of. simpl.
  rewrite enumerate_map_seq, fold_left_map_list.
  apply fold_left_ext. intros acc i.
  by rewrite enumerate_map_seq, fold_left_map_list.
Qed.

(** The inner loop appends [i] to one list of each universe. *)
Lemma append_all_universes (c : nat → Z) i (U : nat) m u h :
  inner (fold_left (λ m u, append_index m u (c u) i) (seq 0 U) m) u !! h
  = if decide ((u < U)%nat ∧ c u = h) then Some (bucket m u h ++ [i])
    else inner m u !! h.
Proof.
  induction U as [|U IH].
  { rewrite decide_False by lia. done. }
  rewrite seq_S, fold_left_app. cbn [fold_left Nat.add].
  rewrite append_index_store, inner_store.
  set (m' := fold_left _ (seq 0 U) m) in *.
  destruct (decide (u = U ∧ h = c U)) as [[-> ->]|Hne].
  - rewrite decide_True by (split; [lia|done]).
    rewrite bucket_inner, IH. rewrite decide_False by lia. done.
  - rewrite IH.
    destruct (decide ((u < U)%nat ∧ c u = h)) as [[Hu Hc]|Hn].
    + rewrite decide_True; [done|]. split; [lia|done].
    + rewrite decide_False; [done|]. intros [Hu Hc]. apply Hn.
      split; [|done]. destruct (decide (u = U)) as [->|]; [|lia].
      exfalso. by apply Hne.
Qed.

(** After the loops over the first [N] samples the list at [(u, h)] holds,
    in increasing order, the samples whose hash in universe [u] is [h]. *)
Lemma fill_first_samples (c : nat → nat → Z) (U N : nat) u h :
  inner
    (fold_left
       (λ m i, fold_left (λ m u, append_index m u (c u i) i) (seq 0 U) m)
       (seq 0 N) ∅) u !! h
  = let l := filter (λ i, c u i = h) (seq 0 N) in
    if decide ((u < U)%nat ∧ l ≠ []) then Some l else None.
Proof.
  cbv zeta. induction N as [|N IH].
  { cbn [seq fold_left]. rewrite decide_False by (cbn; tauto). unfold inner.
    by rewrite lookup_empty. }
  rewrite seq_S, fold_left_app. cbn [fold_left Nat.add].
  set (m := fold_left _ (seq 0 N) ∅) in *.
  rewrite (append_all_universes (λ u, c u N)).
  rewrite filter_app.
  assert (bucket m u h = if decide (u < U)%nat
                         then filter (λ i, c u i = h) (seq 0 N) else [])
    as Hbucket.
  { rewrite bucket_inner, IH.
    destruct (decide (u < U)%nat) as [Hu|Hu].
    - destruct (filter _ (seq 0 N)) as [|x l] eqn:Hl.
      + rewrite decide_False; [done|]. tauto.
      + by rewrite decide_True.
    - rewrite decide_False; [done|]. tauto. }
  rewrite filter_cons, filter_nil.
  destruct (decide ((u < U)%nat ∧ c u N = h)) as [[Hu Hc]|Hn].
  - rewrite Hbucket, (decide_True (P := (u < U)%nat)) by done.
    rewrite (decide_True (P := c u N = h)) by done.
    rewrite decide_True; [done|]. split; [done|].
    intros Hnil. by apply app_eq_nil in Hnil as [_ ?].
  - rewrite IH.
    destruct (decide (c u N = h)) as [Hc|Hc]; [|by rewrite app_nil_r].
    rewrite !(decide_False (P := (u < U)%nat ∧ _)); [done|tauto..].
Qed.

(** [make_hash_table] returns when the width of the corpus matches, and
    says what it stores. *)
Lemma make_hash_table_Ok self (vectors : ndarray2 R) :
  cols2 vectors = dim1 (planes self) →
  ∃ hash_values m,
    get_hash_values self vectors = Ok hash_values
    ∧ make_hash_table self vectors
      = (Ok (), set_hash_to_index_map self (Some m))
    ∧ ∀ u h,
        inner m u !! h
        = let l := filter (λ i, at2 hash_values u i = h)
                     (seq 0 (rows2 vectors)) in
          if decide ((u < dim0 (planes self))%nat ∧ l ≠ []) then Some l
          else None.
Proof.
  intros Hcols.
  destruct (get_hash_values_Ok self vectors Hcols) as (hv & Hhv & Hr & Hc & _).
  exists hv, (fill_hash_table hv ∅). split; [done|]. split.
  - unfold make_hash_table.
    rewrite (get_hash_values_planes self) by done. by rewrite Hhv.
  - intros u h. rewrite fill_hash_table_loops, Hr, Hc.
    apply (fill_first_samples (at2 hv)).
Qed.

Lemma make_hash_table_Err self (vectors : ndarray2 R) :
  cols2 vectors ≠ dim1 (planes self) →
  make_hash_table self vectors
  = (Err ValueError_matmul_core_dimension,
     set_hash_to_index_map self (Some ∅)).
Proof.
  intros Hcols. unfold make_hash_table.
  rewrite (get_hash_values_planes self) by done.
  by rewrite get_hash_values_Err.
Qed.

End build.

(** ** Claims on [make_hash_table] *)

(** C8: [make_hash_table] on a corpus of [N] vectors of the right width
    returns, and afterwards, for every universe, the lists stored for it
    partition [{0, ..., N-1}]: every index below [N] is in exactly one
    stored list of that universe and occurs there once, nothing else is
    stored, and no stored list is empty. *)
Theorem C8_buckets_partition {R : Type} `{Scalar R}
    (self : LSH R) (vectors : ndarray2 R) :
  cols2 vectors = dim1 (planes self) →
  ∃ m,
    make_hash_table self vectors = (Ok (), set_hash_to_index_map self (Some m))
    ∧ ∀ u, (u < dim0 (planes self))%nat →
        partition_of (rows2 vectors) (inner m u).
Proof.
  intros Hcols.
  destruct (make_hash_table_Ok self vectors Hcols) as (hv & m & _ & Hmake & Hm).
  exists m. split; [done|]. intros u Hu.
  assert (∀ h l, inner m u !! h = Some l →
            l = filter (λ i, at2 hv u i = h) (seq 0 (rows2 vectors)) ∧ l ≠ [])
    as Hstored.
  { intros h l. rewrite Hm. cbv zeta.
    destruct (decide _) as [[_ Hne]|]; [|done]. by intros [= <-]. }
  split; [|split].
  - intros i Hi.
    set (l := filter (λ j, at2 hv u j = at2 hv u i) (seq 0 (rows2 vectors))).
    assert (i ∈ l) as Hin.
    { apply list_elem_of_filter. split; [done|]. apply elem_of_seq. lia. }
    exists (at2 hv u i), l. split; [|split].
    + rewrite Hm. cbv zeta. fold l. rewrite decide_True; [done|].
      split; [done|]. intros Hnil. rewrite Hnil in Hin. by apply not_elem_of_nil in Hin.
    + apply NoDup_count_occ'; [|by apply list_elem_of_In].
      apply NoDup_ListNoDup, NoDup_filter, NoDup_seq.
    + intros h' l' Hl' Hin'. apply Hstored in Hl' as [-> _].
      apply list_elem_of_filter in Hin' as [Hh' _]. done.
  - intros h l i Hl Hin. apply Hstored in Hl as [-> _].
    apply list_elem_of_filter in Hin as [_ Hin]. apply elem_of_seq in Hin. lia.
  - intros h l Hl. by apply Hstored in Hl as [_ ?].
Qed.

Lemma C8_witness :
  let self := new_LSH by_parity 2 4 3 in
  let vectors := rows 2 [[1; 2]; [-1; 0]; [0; 0]] in
  cols2 vectors = dim1 (planes self)
  ∧ ∃ m,
      make_hash_table self vectors
      = (Ok (), set_hash_to_index_map self (Some m))
      ∧ ∀ u, (u < dim0 (planes self))%nat →
          partition_of (rows2 vectors) (inner m u).
Proof.
  intros self vectors. split; [reflexivity|].
  apply (C8_buckets_partition self vectors). reflexivity.
Defined.

(** C5, the claim as written fails: on a corpus without vectors
    [make_hash_table] returns normally and leaves an empty dictionary. *)
Lemma C5_empty_corpus_accepted :
  let self := new_LSH all_ones 2 4 3 in
  let '(outcome, self') := make_hash_table self (rows 2 []) in
  outcome = Ok () ∧ dump (hash_to_index_map self') = Some [].
Proof. vm_compute. split; reflexivity. Qed.

(** C5, amended: on a corpus of [N = 0] vectors of the right width
    [make_hash_table] returns normally; the dictionary is empty afterwards
    and nothing else in the object changes. *)
Theorem C5_empty_corpus_builds_empty_table {R : Type} `{Scalar R}
    (self : LSH R) (vectors : ndarray2 R) :
  rows2 vectors = 0%nat →
  cols2 vectors = dim1 (planes self) →
  make_hash_table self vectors = (Ok (), set_hash_to_index_map self (Some ∅)).
Proof.
  intros Hrows Hcols.
  destruct (get_hash_values_Ok self vectors Hcols) as (hv & Hhv & _ & Hc & _).
  unfold make_hash_table.
  rewrite (get_hash_values_planes self) by done. rewrite Hhv.
  by rewrite fill_hash_table_loops, Hc, Hrows.
Qed.

Lemma C5_witness :
  let self := new_LSH all_ones 2 4 3 in
  let vectors := rows 2 [] in
  rows2 vectors = 0%nat
  ∧ cols2 vectors = dim1 (planes self)
  ∧ make_hash_table self vectors
    = (Ok (), set_hash_to_index_map self (Some ∅)).
Proof.
  intros self vectors. split; [reflexivity|]. split; [reflexivity|].
  apply (C5_empty_corpus_builds_empty_table self vectors); reflexivity.
Defined.

(** ** Counting votes *)

Section counting.
Import collections.
Implicit Types (c s : list (nat * nat)) (l : list nat) (x : nat).

Lemma count_one_keys c x :
  map fst (count_one c x)
  = if decide (x ∈ map fst c) then map fst c else map fst c ++ [x].
Proof.
  induction c as [|[y k] c IH]; cbn [count_one map fst app].
  { rewrite decide_False; [done|]. apply not_elem_of_nil. }
  destruct (decide (x = y)) as [->|Hne]; cbn [map fst].
  - rewrite decide_True; [done|]. apply list_elem_of_here.
  - rewrite IH. destruct (decide (x ∈ map fst c)) as [Hin|Hnin].
    + rewrite decide_True; [done|]. by apply list_elem_of_further.
    + rewrite decide_False; [done|]. by intros [?|?]%elem_of_cons.
Qed.

(** The keys of a counter are distinct, and they are the elements
    counted. *)
Lemma fold_count_one_keys l c :
  NoDup (map fst c) →
  NoDup (map fst (fold_left count_one l c))
  ∧ ∀ x, x ∈ map fst (fold_left count_one l c) ↔ x ∈ map fst c ∨ x ∈ l.
Proof.
  revert c. induction l as [|y l IH]; intros c Hc; cbn [fold_left].
  { split; [done|]. intros x. rewrite elem_of_nil. tauto. }
  assert (NoDup (map fst (count_one c y))) as Hc'.
  { rewrite count_one_keys. destruct (decide _) as [|Hnin]; [done|].
    apply NoDup_app. split; [done|]. split.
    - intros z Hz ->%list_elem_of_singleton. done.
    - apply NoDup_singleton. }
  destruct (IH _ Hc') as [Hnd Hkeys]. split; [done|].
  intros x. rewrite Hkeys, count_one_keys, elem_of_cons.
  destruct (decide (y ∈ map fst c)) as [Hin|Hnin].
  - split; [tauto|]. intros [?|[->|?]]; tauto.
  - rewrite elem_of_app, list_elem_of_singleton. tauto.
Qed.

Lemma Counter_keys l :
  NoDup (map fst (Counter l)) ∧ ∀ x, x ∈ map fst (Counter l) ↔ x ∈ l.
Proof.
  destruct (fold_count_one_keys l []) as [Hnd Hkeys]; [apply NoDup_nil_2|].
  split; [done|]. intros x. unfold Counter. rewrite Hkeys.
  cbn [map]. rewrite elem_of_nil. tauto.
Qed.

Lemma insert_by_count_perm (x : nat * nat) s : insert_by_count x s ≡ₚ x :: s.
Proof.
  induction s as [|y s IH]; cbn [insert_by_count]; [done|].
  destruct (x.2 <? y.2)%nat; [|done].
  rewrite IH. apply perm_swap.
Qed.

Lemma sorted_by_count_perm c : sorted_by_count c ≡ₚ c.
Proof.
  induction c as [|x c IH]; cbn [sorted_by_count foldr]; [done|].
  rewrite insert_by_count_perm. by constructor.
Qed.

(** [most_common] returns distinct keys of the counter. *)
Lemma most_common_keys c (n : Z) :
  NoDup (map fst c) →
  NoDup (map fst (most_common c n))
  ∧ ∀ x, x ∈ map fst (most_common c n) → x ∈ map fst c.
Proof.
  intros Hc. unfold most_common. rewrite <- firstn_map.
  assert (map fst (sorted_by_count c) ≡ₚ map fst c) as Hperm
    by apply Permutation_map, sorted_by_count_perm.
  split.
  - eapply sublist_NoDup; [|apply sublist_take]. by rewrite Hperm.
  - intros x Hx. rewrite <- Hperm. by eapply subseteq_take.
Qed.

(** The keys of a counter come in the order of first occurrence. *)
Lemma fold_count_one_order l c :
  map fst (fold_left count_one l c)
  = fold_left (λ seen x, if decide (x ∈ seen) then seen else seen ++ [x])
      l (map fst c).
Proof.
  revert c. induction l as [|y l IH]; intros c; cbn [fold_left]; [done|].
  by rewrite IH, count_one_keys.
Qed.

Lemma Counter_order l : map fst (Counter l) = first_occurrences l.
Proof. apply (fold_count_one_order l []). Qed.

Lemma votes_count_one c x y :
  votes (count_one c x) y = (votes c y + if decide (y = x) then 1 else 0)%nat.
Proof.
  induction c as [|[z k] c IH]; cbn [count_one votes].
  { by destruct (decide (y = x)). }
  destruct (decide (x = z)) as [->|Hxz]; cbn [votes].
  - destruct (decide (y = z)); lia.
  - rewrite IH. destruct (decide (y = z)) as [->|]; [|done].
    rewrite decide_False by done. lia.
Qed.

Lemma votes_fold_count_one l c x :
  votes (fold_left count_one l c) x
  = (votes c x + count_occ Nat.eq_dec l x)%nat.
Proof.
  revert c. induction l as [|y l IH]; intros c; cbn [fold_left count_occ].
  { lia. }
  rewrite IH, votes_count_one.
  destruct (Nat.eq_dec y x) as [->|Hne].
  - rewrite decide_True by done. lia.
  - rewrite decide_False by done. lia.
Qed.

(** A counter holds for each element the number of its occurrences. *)
Lemma Counter_votes l x : votes (Counter l) x = count_occ Nat.eq_dec l x.
Proof. unfold Counter. by rewrite votes_fold_count_one. Qed.

Lemma votes_item c x k : NoDup (map fst c) → (x, k) ∈ c → votes c x = k.
Proof.
  induction c as [|[y j] c IH]; cbn [map fst votes].
  { by intros _ ?%elem_of_nil. }
  intros [Hy Hc]%NoDup_cons [[= -> ->]|Hin]%elem_of_cons.
  - by rewrite decide_True.
  - rewrite decide_False; [by apply IH|]. intros ->. apply Hy.
    apply list_elem_of_In, in_map_iff. exists (y, k). split; [done|].
    by apply list_elem_of_In.
Qed.

Lemma insert_by_count_Forall (P : nat * nat → Prop) (x : nat * nat) s :
  P x → Forall P s → Forall P (insert_by_count x s).
Proof.
  intros Hx Hs. induction Hs as [|y s Hy Hs IH]; cbn [insert_by_count].
  { by constructor. }
  destruct (x.2 <? y.2)%nat; by repeat constructor.
Qed.

Lemma insert_by_count_sorted (x : nat * nat) s :
  StronglySorted by_count_desc s →
  StronglySorted by_count_desc (insert_by_count x s).
Proof.
  induction 1 as [|y s Hs IH Hy]; cbn [insert_by_count].
  { by repeat constructor. }
  destruct (Nat.ltb_spec x.2 y.2) as [Hlt|Hge].
  - constructor; [done|]. apply insert_by_count_Forall; [|done].
    unfold by_count_desc. lia.
  - constructor; [by constructor|]. constructor; [done|].
    eapply Forall_impl; [exact Hy|]. unfold by_count_desc. intros z. lia.
Qed.

(** The sort puts larger counts first... *)
Lemma sorted_by_count_sorted c :
  StronglySorted by_count_desc (sorted_by_count c).
Proof.
  induction c as [|x c IH]; cbn [sorted_by_count foldr]; [constructor|].
  by apply insert_by_count_sorted.
Qed.

Lemma insert_by_count_stable (v : nat) (x : nat * nat) s :
  filter (λ a, a.2 = v) (insert_by_count x s)
  = filter (λ a, a.2 = v) (x :: s).
Proof.
  induction s as [|y s IH]; cbn [insert_by_count]; [done|].
  destruct (Nat.ltb_spec x.2 y.2) as [Hlt|Hge]; [|done].
  rewrite (filter_cons _ y), IH, !filter_cons.
  destruct (decide (x.2 = v)) as [Hx|Hx], (decide (y.2 = v)) as [Hy|Hy];
    try done.
  lia.
Qed.

(** ... and is stable: the items of one count keep their order. *)
Lemma sorted_by_count_stable (v : nat) c :
  filter (λ a, a.2 = v) (sorted_by_count c) = filter (λ a, a.2 = v) c.
Proof.
  induction c as [|x c IH]; cbn [sorted_by_count foldr]; [done|].
  rewrite insert_by_count_stable, !filter_cons.
  fold (sorted_by_count c). by rewrite IH.
Qed.

End counting.

(** ** Querying *)

Section query.
Context {R : Type} `{Scalar R}.
Implicit Types (self : LSH R) (m : index_map) (u : nat) (h : Z).

Lemma set_hash_to_index_map_same self :
  set_hash_to_index_map self (hash_to_index_map self) = self.
Proof. by destruct self. Qed.

Lemma collect_None (items : list (nat * item)) similar_indices :
  (collect items similar_indices None).2 = None.
Proof. by destruct items as [|[u k] items]. Qed.

(** With a dictionary in place the loop hands back a dictionary that
    reads the same, and everything it collects comes from the lists
    stored. *)
Lemma collect_Some (items : list (nat * item)) similar_indices m :
  ∃ m',
    (collect items similar_indices (Some m)).2 = Some m'
    ∧ reads_preserved m m'
    ∧ ∀ l, (collect items similar_indices (Some m)).1 = Ok l →
        ∀ x, x ∈ l → x ∈ similar_indices ∨ ∃ u h, x ∈ bucket m u h.
Proof.
  revert similar_indices m.
  induction items as [|[u k] items IH]; intros similar_indices m.
  { exists m. cbn [collect fst snd]. split; [done|].
    split; [apply reads_preserved_refl|]. intros l [= <-] x Hx. by left. }
  cbn [collect]. destruct k as [h|row].
  - rewrite getitem_bucket_touch.
    destruct (IH (similar_indices ++ bucket m u h) (touch m u h))
      as (m' & Hstate & Hreads & Hfrom).
    exists m'. split; [done|]. split.
    { eapply reads_preserved_trans; [apply reads_preserved_touch|done]. }
    intros l Hl x Hx.
    destruct (Hfrom l Hl x Hx) as [Hin|(u' & h' & Hin)].
    + apply elem_of_app in Hin as [?|?]; [by left|right; eauto].
    + right. exists u', h'.
      by rewrite <- (proj1 (reads_preserved_touch m u h)).
  - exists (getitem_universe m u).2. cbn [fst snd]. split; [done|].
    split; [apply reads_preserved_getitem_universe|]. intros l [=].
Qed.

(** What a query does to the object and where its answer comes from. *)
Lemma query_effect self (vector : ndarray2 R) (n_most_common : Z) :
  ∃ d,
    (get_similar_samples_indices self vector n_most_common).2
    = set_hash_to_index_map self d
    ∧ match hash_to_index_map self with
      | None => d = None
      | Some m =>
          ∃ m', d = Some m' ∧ reads_preserved m m'
            ∧ ∀ l,
                (get_similar_samples_indices self vector n_most_common).1
                = Ok l →
                NoDup l ∧ ∀ x, x ∈ l → ∃ u h, x ∈ bucket m u h
      end.
Proof.
  unfold get_similar_samples_indices.
  destruct (get_hash_values self vector) as [hv|e].
  2:{ exists (hash_to_index_map self). cbn [fst snd].
      rewrite set_hash_to_index_map_same. split; [done|].
      destruct (hash_to_index_map self) as [m|]; [|done].
      exists m. split; [done|]. split; [apply reads_preserved_refl|]. intros l [=]. }
  destruct (iterate (np.squeeze hv)) as [items|e].
  2:{ exists (hash_to_index_map self). cbn [fst snd].
      rewrite set_hash_to_index_map_same. split; [done|].
      destruct (hash_to_index_map self) as [m|]; [|done].
      exists m. split; [done|]. split; [apply reads_preserved_refl|]. intros l [=]. }
  destruct (hash_to_index_map self) as [m|].
  - destruct (collect_Some (enumerate items) [] m) as (m' & Hstate & Hreads & Hfrom).
    destruct (collect (enumerate items) [] (Some m)) as [[similar|e] d];
      cbn [fst snd] in *; subst d.
    + exists (Some m'). split; [done|]. exists m'. split; [done|].
      split; [done|]. intros l [= <-].
      destruct (Counter_keys similar) as [Hnd Hkeys].
      destruct (most_common_keys (collections.Counter similar)
                  n_most_common Hnd) as [Hnd' Hsub].
      split; [done|]. intros x Hx. apply Hsub, Hkeys in Hx.
      destruct (Hfrom similar eq_refl x Hx) as [Hnil|?]; [|done].
      by apply elem_of_nil in Hnil.
    + exists (Some m'). split; [done|]. exists m'. split; [done|].
      split; [done|]. intros l [=].
  - pose proof (collect_None (enumerate items) []) as Hstate.
    destruct (collect (enumerate items) [] None) as [[similar|e] d];
      cbn [fst snd] in *; subst d; by exists None.
Qed.

Lemma squeeze_column (a : ndarray2 Z) :
  rows2 a ≠ 1%nat → cols2 a = 1%nat →
  np.squeeze a = np.Squeezed1 (map (λ u, at2 a u 0%nat) (seq 0 (rows2 a))).
Proof.
  intros Hr Hc. unfold np.squeeze.
  destruct (decide (rows2 a = 1%nat)); [done|].
  by destruct (decide (cols2 a = 1%nat)).
Qed.

Lemma squeeze_single (a : ndarray2 Z) :
  rows2 a = 1%nat → cols2 a = 1%nat →
  np.squeeze a = np.Squeezed0 (at2 a 0%nat 0%nat).
Proof.
  intros Hr Hc. unfold np.squeeze.
  destruct (decide (rows2 a = 1%nat)); [|done].
  by destruct (decide (cols2 a = 1%nat)).
Qed.

(** The loop over a 1-D array of hash values. *)
Lemma collect_scalars (code : nat → Z) (us : list nat) similar_indices m :
  collect (map (λ u, (u, Scalar_item (code u))) us) similar_indices (Some m)
  = (Ok (similar_indices ++ concat (map (λ u, bucket m u (code u)) us)),
     Some (fold_left (λ m u, touch m u (code u)) us m)).
Proof.
  revert similar_indices m.
  induction us as [|u us IH]; intros similar_indices m;
    cbn [map collect concat fold_left].
  { by rewrite app_nil_r. }
  rewrite getitem_bucket_touch, IH, <- app_assoc.
  assert (map (λ u', bucket (touch m u (code u)) u' (code u')) us
          = map (λ u', bucket m u' (code u')) us) as ->; [|done].
  apply map_ext. intros u'. apply (reads_preserved_touch m u (code u)).
Qed.

(** A one-row query of the right width returns, unless there is exactly
    one universe. *)
Lemma query_Ok self (vector : ndarray2 R) (n_most_common : Z) m :
  hash_to_index_map self = Some m →
  rows2 vector = 1%nat →
  cols2 vector = dim1 (planes self) →
  dim0 (planes self) ≠ 1%nat →
  ∃ hash_values,
    get_hash_values self vector = Ok hash_values
    ∧ get_similar_samples_indices self vector n_most_common
      = (Ok (map fst
               (collections.most_common
                  (collections.Counter
                     (concat (map (λ u, bucket m u (at2 hash_values u 0%nat))
                                (seq 0 (dim0 (planes self))))))
                  n_most_common)),
         set_hash_to_index_map self
           (Some (fold_left (λ m u, touch m u (at2 hash_values u 0%nat))
                    (seq 0 (dim0 (planes self))) m))).
Proof.
  intros Hm Hrows Hcols HU.
  destruct (get_hash_values_Ok self vector Hcols) as (hv & Hhv & Hr & Hc & _).
  exists hv. split; [done|].
  unfold get_similar_samples_indices. rewrite Hhv.
  rewrite squeeze_column by congruence. cbn [iterate].
  rewrite map_map, enumerate_map_seq, Hm, Hr.
  by rewrite (collect_scalars (λ u, at2 hv u 0%nat)).
Qed.

(** With exactly one universe the squeezed hash values are a 0-d array,
    which cannot be iterated over. *)
Lemma query_single_universe self (vector : ndarray2 R) (n_most_common : Z) :
  rows2 vector = 1%nat →
  cols2 vector = dim1 (planes self) →
  dim0 (planes self) = 1%nat →
  get_similar_samples_indices self vector n_most_common
  = (Err TypeError_iteration_over_0d, self).
Proof.
  intros Hrows Hcols HU.
  destruct (get_hash_values_Ok self vector Hcols) as (hv & Hhv & Hr & Hc & _).
  unfold get_similar_samples_indices. rewrite Hhv.
  by rewrite squeeze_single by congruence.
Qed.

Lemma query_dimension_mismatch self (vector : ndarray2 R) (n_most_common : Z) :
  cols2 vector ≠ dim1 (planes self) →
  get_similar_samples_indices self vector n_most_common
  = (Err ValueError_matmul_core_dimension, self).
Proof.
  intros Hcols. unfold get_similar_samples_indices.
  by rewrite get_hash_values_Err.
Qed.

(** Every index stored in a built object is below the size of the corpus. *)
Lemma built_indices_below (N : nat) self :
  built N self →
  ∃ m, hash_to_index_map self = Some m
       ∧ ∀ u h x, x ∈ bucket m u h → (x < N)%nat.
Proof.
  induction 1 as [self vectors self' Hrows Hmake
                 |self vector n_most_common Hbuilt (m & Hm & Hbelow)].
  - destruct (decide (cols2 vectors = dim1 (planes self))) as [Hcols|Hcols].
    + destruct (make_hash_table_Ok self vectors Hcols)
        as (hv & m & _ & Hmake' & Hstored).
      rewrite Hmake' in Hmake. injection Hmake as <-.
      exists m. split; [done|]. intros u h x.
      rewrite bucket_inner, Hstored. cbv zeta.
      destruct (decide _); cbn [default]; [|by intros ?%elem_of_nil].
      intros [_ Hin%elem_of_seq]%list_elem_of_filter. lia.
    + by rewrite make_hash_table_Err in Hmake.
  - destruct (query_effect self vector n_most_common) as (d & -> & Hd).
    rewrite Hm in Hd. destruct Hd as (m' & -> & (Hreads & _) & _).
    exists m'. split; [done|]. intros u h x. rewrite Hreads. apply Hbelow.
Qed.

End query.

(** ** Claims on [get_similar_samples_indices] *)

(** C3, the claim as written fails: on an object without universes, which
    the constructor accepts, a query before any [make_hash_table] returns
    the empty list instead of raising. *)
Lemma C3_query_before_build_returns :
  let self := new_LSH all_ones 2 4 0 in
  __init__ all_ones 2 4 0 = Ok self
  ∧ hash_to_index_map self = None
  ∧ (get_similar_samples_indices self (rows 2 [[1; 2]]) 5).1 = Ok [].
Proof. repeat split. Qed.

(** C3, amended: with at least two universes, a one-row query before any
    [make_hash_table] raises and leaves the object as it is: the
    [ValueError] of [np.matmul] when the width of the vector is not
    [vector_dims], otherwise the [TypeError] of subscripting [None]. *)
Theorem C3_query_before_build_raises {R : Type} `{Scalar R}
    (self : LSH R) (vector : ndarray2 R) (n_most_common : Z) :
  hash_to_index_map self = None →
  rows2 vector = 1%nat →
  (2 ≤ dim0 (planes self))%nat →
  get_similar_samples_indices self vector n_most_common
  = (Err (if decide (cols2 vector = dim1 (planes self))
          then TypeError_NoneType_subscript
          else ValueError_matmul_core_dimension),
     self).
Proof.
  intros Hnone Hrows HU.
  destruct (decide (cols2 vector = dim1 (planes self))) as [Hcols|Hcols];
    [|by apply query_dimension_mismatch].
  destruct (get_hash_values_Ok self vector Hcols) as (hv & Hhv & Hr & Hc & _).
  unfold get_similar_samples_indices. rewrite Hhv.
  rewrite squeeze_column by (rewrite ?Hr, ?Hc; lia). cbn [iterate].
  rewrite map_map, enumerate_map_seq, Hnone, Hr.
  destruct (dim0 (planes self)) as [|U]; [lia|]. cbn [seq map collect].
  by rewrite <- Hnone, set_hash_to_index_map_same.
Qed.

Lemma C3_witness :
  let self := new_LSH all_ones 2 4 3 in
  let vector := rows 2 [[1; 2]] in
  hash_to_index_map self = None
  ∧ rows2 vector = 1%nat
  ∧ (2 ≤ dim0 (planes self))%nat
  ∧ get_similar_samples_indices self vector 5
    = (Err TypeError_NoneType_subscript, self).
Proof.
  intros self vector.
  assert (2 ≤ dim0 (planes self))%nat as HU by (simpl; lia).
  split; [reflexivity|]. split; [reflexivity|]. split; [exact HU|].
  apply (C3_query_before_build_raises self vector 5 eq_refl eq_refl HU).
Defined.

(** C4, the claim as written fails: a query whose bucket is missing in a
    universe binds the missing key to an empty list, so the dictionary
    after the call differs from the one before. *)
Lemma C4_query_changes_the_dictionary :
  let built_self := (make_hash_table (new_LSH all_ones 1 2 2) (rows 1 [[1]])).2 in
  let '(outcome, self') :=
    get_similar_samples_indices built_self (rows 1 [[-1]]) 5 in
  outcome = Ok []
  ∧ dump (hash_to_index_map built_self)
    = Some [(1%nat, [(1, [0%nat])]); (0%nat, [(1, [0%nat])])]
  ∧ dump (hash_to_index_map self')
    = Some [(1%nat, [(1, [0%nat]); (0, [])]); (0%nat, [(1, [0%nat]); (0, [])])]
  ∧ hash_to_index_map self' ≠ hash_to_index_map built_self.
Proof.
  vm_compute. repeat split. intros Heq.
  apply (f_equal dump) in Heq. vm_compute in Heq. discriminate.
Qed.

(** C4, amended: a query changes no list that is stored and nothing that a
    lookup reads.  After the call [n_buckets], [n_universes] and [planes]
    are what they were; every pair of keys reads the same list as before,
    a missing key reading as the empty list; every list stored before is
    stored under the same keys; no universe is removed.  A query of the
    wrong width leaves the whole object identical. *)
Theorem C4_query_preserves_reads {R : Type} `{Scalar R}
    (self : LSH R) (vector : ndarray2 R) (n_most_common : Z) :
  let self' := (get_similar_samples_indices self vector n_most_common).2 in
  n_buckets self' = n_buckets self
  ∧ n_universes self' = n_universes self
  ∧ planes self' = planes self
  ∧ match hash_to_index_map self, hash_to_index_map self' with
    | Some m, Some m' => reads_preserved m m'
    | None, None => True
    | _, _ => False
    end
  ∧ (cols2 vector ≠ dim1 (planes self) → self' = self).
Proof.
  intros self'. subst self'.
  destruct (query_effect self vector n_most_common) as (d & Hstate & Hd).
  split; [by rewrite Hstate|]. split; [by rewrite Hstate|].
  split; [by rewrite Hstate|]. split.
  - rewrite Hstate. cbn [set_hash_to_index_map hash_to_index_map].
    destruct (hash_to_index_map self) as [m|].
    + by destruct Hd as (m' & -> & Hreads & _).
    + by rewrite Hd.
  - intros Hcols. by rewrite query_dimension_mismatch.
Qed.

Lemma C4_witness :
  let self := (make_hash_table (new_LSH all_ones 1 2 2) (rows 1 [[1]])).2 in
  let vector := rows 3 [[1; 2; 3]] in
  cols2 vector ≠ dim1 (planes self)
  ∧ (get_similar_samples_indices self vector 5).2 = self.
Proof.
  intros self vector.
  assert (cols2 vector ≠ dim1 (planes self)) as Hcols by (simpl; lia).
  split; [exact Hcols|].
  apply (C4_query_preserves_reads self vector 5). exact Hcols.
Defined.

(** C9, the code at a valid configuration with one universe: after
    [make_hash_table] on three identical vectors, the query with that
    vector and [n_most_common = 5] raises instead of returning
    [[0, 1, 2]]; [np.squeeze] has turned the [(1, 1)] array of hash values
    into a 0-d array. *)
Theorem C9_single_universe_query_raises :
  let self := new_LSH all_ones 4 4 1 in
  let '(built_outcome, built_self) :=
    make_hash_table self (rows 4 [[1; 0; 0; 0]; [1; 0; 0; 0]; [1; 0; 0; 0]]) in
  __init__ all_ones 4 4 1 = Ok self
  ∧ built_outcome = Ok ()
  ∧ dump (hash_to_index_map built_self) = Some [(0%nat, [(3, [0; 1; 2]%nat)])]
  ∧ (get_similar_samples_indices built_self (rows 4 [[1; 0; 0; 0]]) 5).1
    = Err TypeError_iteration_over_0d.
Proof. vm_compute. repeat split. Qed.

(** C10: on every object built over [N] vectors, whatever queries came
    since, a query that returns gives a list without duplicates whose
    elements are below [N]; and a one-row query of the right width does
    return unless there is exactly one universe. *)
Theorem C10_query_result_distinct_and_bounded {R : Type} `{Scalar R}
    (N : nat) (self : LSH R) (vector : ndarray2 R) (n_most_common : Z) :
  built N self →
  (∀ l, (get_similar_samples_indices self vector n_most_common).1 = Ok l →
     NoDup l ∧ ∀ x, x ∈ l → (x < N)%nat)
  ∧ (rows2 vector = 1%nat → cols2 vector = dim1 (planes self) →
     dim0 (planes self) ≠ 1%nat →
     ∃ l, (get_similar_samples_indices self vector n_most_common).1 = Ok l).
Proof.
  intros Hbuilt.
  destruct (built_indices_below N self Hbuilt) as (m & Hm & Hbelow).
  split.
  - intros l Hl.
    destruct (query_effect self vector n_most_common) as (d & _ & Hd).
    rewrite Hm in Hd. destruct Hd as (m' & _ & _ & Hres).
    destruct (Hres l Hl) as [Hnd Hfrom]. split; [done|].
    intros x Hx. destruct (Hfrom x Hx) as (u & h & Hin). by eapply Hbelow.
  - intros Hrows Hcols HU.
    destruct (query_Ok self vector n_most_common m Hm Hrows Hcols HU)
      as (hv & _ & ->).
    by eexists.
Qed.

Lemma C10_witness :
  let self0 := new_LSH by_parity 2 4 3 in
  let vectors := rows 2 [[1; 2]; [-1; 0]; [1; 2]] in
  let self := (make_hash_table self0 vectors).2 in
  let vector := rows 2 [[1; 2]] in
  built 3 self
  ∧ (get_similar_samples_indices self vector 5).1 = Ok [0; 2]%nat
  ∧ NoDup [0; 2]%nat ∧ ∀ x, x ∈ [0; 2]%nat → (x < 3)%nat.
Proof.
  intros self0 vectors self vector.
  assert (built 3 self) as Hbuilt.
  { apply (built_make 3 self0 vectors); [reflexivity|].
    vm_compute. reflexivity. }
  split; [exact Hbuilt|].
  assert ((get_similar_samples_indices self vector 5).1 = Ok [0; 2]%nat)
    as Hres by (vm_compute; reflexivity).
  split; [exact Hres|].
  exact (proj1 (C10_query_result_distinct_and_bounded 3 self vector 5 Hbuilt)
           _ Hres).
Defined.

(** ** The ranking of a query, and the scenario of C9 away from one universe *)

Section ranking.
Context {R : Type} `{Scalar R}.
Implicit Types (self : LSH R) (m : index_map) (u : nat) (h : Z).

Lemma make_hash_table_frame self (vectors : ndarray2 R) :
  ∃ d, (make_hash_table self vectors).2 = set_hash_to_index_map self d.
Proof.
  unfold make_hash_table.
  destruct (get_hash_values _ vectors); by eexists.
Qed.

(** Class invariant: an object obtained from
    [LSH(vector_dims, max_buckets, n_universes)] by any calls of
    [make_hash_table] and [get_similar_samples_indices], failed ones
    included, has [math.floor(np.log2(max_buckets))] planes, which is the
    floor of the logarithm or one more: at most 64, at most 63 for
    [max_buckets < 2^63], the floor itself for [max_buckets < 2^32];
    [n_buckets] is 2 to the number of planes and [n_universes] the first
    extent of the planes. *)
Theorem reachable_invariant `{Log2} (max_buckets : Z) self :
  reachable max_buckets self →
  1 ≤ max_buckets < 2 ^ 64
  ∧ Z.of_nat (dim2 (planes self)) = floor_of_log2 (float64_of_int max_buckets)
  ∧ Z.log2 max_buckets ≤ Z.of_nat (dim2 (planes self))
    ≤ Z.log2 max_buckets + 1
  ∧ (dim2 (planes self) ≤ 64)%nat
  ∧ (max_buckets < 2 ^ 63 → well_formed self)
  ∧ (max_buckets < 2 ^ 32 →
     Z.of_nat (dim2 (planes self)) = Z.log2 max_buckets)
  ∧ n_buckets self = 2 ^ Z.of_nat (dim2 (planes self))
  ∧ n_universes self = Z.of_nat (dim0 (planes self)).
Proof.
  intros Hreach.
  assert (1 ≤ max_buckets < 2 ^ 64
          ∧ Z.of_nat (dim2 (planes self))
            = floor_of_log2 (float64_of_int max_buckets)
          ∧ n_buckets self = 2 ^ Z.of_nat (dim2 (planes self))
          ∧ n_universes self = Z.of_nat (dim0 (planes self)))
    as (Hm & Hp & Hnb & Hu).
  { induction Hreach as [normal vector_dims universes self Hinit
                        |self vectors _ IH|self vector n_most_common _ IH].
    - by eapply init_planes.
    - by destruct (make_hash_table_frame self vectors) as (d & ->).
    - by destruct (query_effect self vector n_most_common) as (d & -> & _). }
  pose proof (n_planes_enclosed max_buckets ltac:(lia)) as Hlog.
  pose proof (log2_below_64 max_buckets Hm) as Hlog64.
  split; [done|]. split; [done|]. split; [lia|]. split; [lia|].
  split; [|split; [|done]].
  - intros Hsmall.
    assert (Z.log2 max_buckets < 63) by (apply Z.log2_lt_pow2; lia).
    unfold well_formed. split; [lia|done].
  - intros Hsmall. rewrite Hp. apply n_planes_below_2_32. lia.
Qed.

(** The answer of a query that returns: the votes are the lists found,
    universe after universe; the candidates are ranked by decreasing
    number of votes, candidates with the same number in the order of
    their first occurrence in that scan; the first [n_most_common] are
    returned. *)
Theorem query_ranking self (vector : ndarray2 R) (n_most_common : Z) m :
  hash_to_index_map self = Some m →
  rows2 vector = 1%nat →
  cols2 vector = dim1 (planes self) →
  dim0 (planes self) ≠ 1%nat →
  ∃ hash_values similar_indices ranked,
    get_hash_values self vector = Ok hash_values
    ∧ similar_indices
      = concat (map (λ u, bucket m u (at2 hash_values u 0%nat))
                  (seq 0 (dim0 (planes self))))
    ∧ (get_similar_samples_indices self vector n_most_common).1
      = Ok (take (Z.to_nat n_most_common) (map fst ranked))
    ∧ ranked ≡ₚ collections.Counter similar_indices
    ∧ StronglySorted by_count_desc ranked
    ∧ (∀ v, filter (λ a, a.2 = v) ranked
            = filter (λ a, a.2 = v) (collections.Counter similar_indices))
    ∧ map fst (collections.Counter similar_indices)
      = first_occurrences similar_indices
    ∧ ∀ x k, (x, k) ∈ ranked →
        k = count_occ Nat.eq_dec similar_indices x.
Proof.
  intros Hm Hrows Hcols HU.
  destruct (query_Ok self vector n_most_common m Hm Hrows Hcols HU)
    as (hv & Hhv & Hquery).
  set (similar := concat (map (λ u, bucket m u (at2 hv u 0%nat))
                            (seq 0 (dim0 (planes self))))) in *.
  exists hv, similar, (collections.sorted_by_count (collections.Counter similar)).
  split; [done|]. split; [done|]. split.
  { rewrite Hquery. cbn [fst]. unfold collections.most_common.
    by rewrite firstn_map. }
  split; [apply sorted_by_count_perm|].
  split; [apply sorted_by_count_sorted|].
  split; [intros v; apply sorted_by_count_stable|].
  split; [apply Counter_order|].
  intros x k Hin. rewrite <- Counter_votes.
  symmetry. apply votes_item; [apply Counter_keys|].
  by rewrite <- (sorted_by_count_perm (collections.Counter similar)).
Qed.

(** Equal rows have equal hash values. *)
Lemma hash_values_of_equal_rows self (v1 v2 : ndarray2 R) hv1 hv2 (i j : nat) :
  get_hash_values self v1 = Ok hv1 →
  get_hash_values self v2 = Ok hv2 →
  (∀ d, (d < dim1 (planes self))%nat → at2 v1 i d = at2 v2 j d) →
  ∀ u, at2 hv1 u i = at2 hv2 u j.
Proof.
  intros H1 H2 Hrows u.
  destruct (decide (cols2 v1 = dim1 (planes self))) as [Hc1|Hc1];
    [|by rewrite get_hash_values_Err in H1].
  destruct (decide (cols2 v2 = dim1 (planes self))) as [Hc2|Hc2];
    [|by rewrite get_hash_values_Err in H2].
  destruct (get_hash_values_Ok self v1 Hc1) as (hv & Hhv & _ & _ & Hat1).
  rewrite H1 in Hhv. injection Hhv as <-.
  destruct (get_hash_values_Ok self v2 Hc2) as (hv & Hhv & _ & _ & Hat2).
  rewrite H2 in Hhv. injection Hhv as <-.
  rewrite Hat1, Hat2. apply fold_left_ext. intros acc p.
  assert (spec_bit self v1 u i p = spec_bit self v2 u j p) as ->; [|done].
  unfold spec_bit, dot_product_entry. rewrite Hc1, Hc2. f_equal.
  apply fold_left_ext_in. intros a d Hd%elem_of_seq.
  rewrite Hrows by lia. done.
Qed.

Lemma count_repeated_012 (n s a b c : nat) :
  fold_left collections.count_one
    (concat (map (λ _, [0; 1; 2]%nat) (seq s n)))
    [(0, a); (1, b); (2, c)]%nat
  = [(0, a + n); (1, b + n); (2, c + n)]%nat.
Proof.
  revert s a b c. induction n as [|n IH]; intros s a b c.
  { cbn [seq map concat fold_left]. by rewrite !Nat.add_0_r. }
  cbn [seq map concat app fold_left collections.count_one].
  change (fold_left collections.count_one
            (concat (map (λ _, [0; 1; 2]%nat) (seq (S s) n)))
            [(0, S a); (1, S b); (2, S c)]%nat
          = [(0, a + S n); (1, b + S n); (2, c + S n)]%nat).
  rewrite IH, !Nat.add_succ_r. done.
Qed.

(** The scenario of C9 with two universes or more: after
    [make_hash_table] on three vectors equal to the query, the query with
    [n_most_common = 5] returns [[0, 1, 2]]. *)
Theorem three_identical_vectors_query self (corpus vector : ndarray2 R) :
  rows2 corpus = 3%nat →
  rows2 vector = 1%nat →
  cols2 corpus = dim1 (planes self) →
  cols2 vector = dim1 (planes self) →
  (∀ i d, (i < 3)%nat → (d < dim1 (planes self))%nat →
     at2 corpus i d = at2 vector 0%nat d) →
  (2 ≤ dim0 (planes self))%nat →
  (get_similar_samples_indices (make_hash_table self corpus).2 vector 5).1
  = Ok [0; 1; 2]%nat.
Proof.
  intros Hrows3 Hrows1 Hcols3 Hcols1 Hsame HU.
  destruct (make_hash_table_Ok self corpus Hcols3)
    as (hv & m & Hhv & -> & Hstored).
  cbn [snd]. set (self' := set_hash_to_index_map self (Some m)).
  destruct (query_Ok self' vector 5 m eq_refl Hrows1 Hcols1)
    as (hvq & Hhvq & ->); [cbn; lia|].
  cbn [fst]. f_equal.
  rewrite (get_hash_values_planes self self') in Hhvq by done.
  assert (map (λ u, bucket m u (at2 hvq u 0%nat)) (seq 0 (dim0 (planes self')))
          = map (λ _, [0; 1; 2]%nat) (seq 0 (dim0 (planes self')))) as ->.
  { apply map_ext_in. intros u [_ Hu]%list_elem_of_In%elem_of_seq.
    assert (∀ i, (i < 3)%nat → at2 hv u i = at2 hvq u 0%nat) as Heq.
    { intros i Hi. apply (hash_values_of_equal_rows self corpus vector); try done.
      intros d Hd. by apply Hsame. }
    rewrite bucket_inner, Hstored, Hrows3. cbv zeta.
    cbn [seq]. rewrite !filter_cons, filter_nil.
    rewrite (Heq 0%nat), (Heq 1%nat), (Heq 2%nat) by lia.
    rewrite !(decide_True (P := at2 hvq u 0%nat = at2 hvq u 0%nat)) by done.
    rewrite decide_True; [done|]. split; [exact Hu|done]. }
  change (dim0 (planes self')) with (dim0 (planes self)).
  destruct (dim0 (planes self)) as [|U]; [lia|].
  unfold collections.Counter.
  cbn [seq map concat app fold_left collections.count_one].
  change (map fst
            (collections.most_common
               (fold_left collections.count_one
                  (concat (map (λ _, [0; 1; 2]%nat) (seq 1 U)))
                  [(0, 1); (1, 1); (2, 1)]%nat) 5)
          = [0; 1; 2]%nat).
  rewrite count_repeated_012.
  unfold collections.most_common, collections.sorted_by_count.
  cbn [foldr].
  do 2 (cbn [collections.insert_by_count snd]; rewrite Nat.ltb_irrefl).
  done.
Qed.

End ranking.

Lemma three_identical_vectors_query_witness :
  let self := new_LSH by_parity 4 4 3 in
  let corpus := rows 4 [[1; 0; 0; 0]; [1; 0; 0; 0]; [1; 0; 0; 0]] in
  let vector := rows 4 [[1; 0; 0; 0]] in
  (rows2 corpus = 3%nat ∧ rows2 vector = 1%nat
   ∧ cols2 corpus = dim1 (planes self) ∧ cols2 vector = dim1 (planes self)
   ∧ (2 ≤ dim0 (planes self))%nat)
  ∧ (get_similar_samples_indices (make_hash_table self corpus).2 vector 5).1
    = Ok [0; 1; 2]%nat.
Proof.
  intros self corpus vector.
  assert (2 ≤ dim0 (planes self))%nat as HU by (simpl; lia).
  split; [repeat split; exact HU|].
  apply (three_identical_vectors_query self corpus vector);
    try reflexivity; [|exact HU].
  intros i d Hi Hd.
  destruct i as [|[|[|i]]]; [reflexivity..|lia].
Defined.

Lemma reachable_invariant_witness :
  let self :=
    (get_similar_samples_indices
       (make_hash_table (new_LSH by_parity 2 4 3) (rows 2 [[1; 2]])).2
       (rows 2 [[1; 2]]) 5).2 in
  reachable 4 self
  ∧ dim2 (planes self) = 2%nat
  ∧ well_formed self
  ∧ n_buckets self = 4.
Proof.
  intros self.
  assert (reachable 4 self) as Hreach.
  { apply reachable_query, reachable_make.
    apply (reachable_init 4 by_parity 2 3). reflexivity. }
  destruct (reachable_invariant 4 self Hreach)
    as (_ & _ & _ & _ & Hwf & Hp & Hnb & _).
  split; [exact Hreach|]. split; [|split].
  - apply Nat2Z.inj. rewrite Hp by lia. reflexivity.
  - apply Hwf. lia.
  - rewrite Hnb, Hp by lia. reflexivity.
Defined.

Lemma query_ranking_witness :
  let self := (make_hash_table (new_LSH by_parity 2 4 3)
                 (rows 2 [[1; 2]; [-1; 0]; [1; 2]])).2 in
  let vector := rows 2 [[1; 2]] in
  ∃ m,
    (hash_to_index_map self = Some m ∧ rows2 vector = 1%nat
     ∧ cols2 vector = dim1 (planes self) ∧ dim0 (planes self) ≠ 1%nat)
    ∧ ∃ ranked,
        (get_similar_samples_indices self vector 1).1
        = Ok (take (Z.to_nat 1) (map fst ranked))
        ∧ StronglySorted by_count_desc ranked.
Proof.
  intros self vector. eexists.
  assert (dim0 (planes self) ≠ 1%nat) as HU by (simpl; lia).
  split; [split; [reflexivity|]; split; [reflexivity|];
          split; [reflexivity|exact HU]|].
  destruct (query_ranking self vector 1 _ eq_refl eq_refl eq_refl HU)
    as (hv & similar & ranked & _ & _ & Hres & _ & Hsorted & _).
  exists ranked. split; [exact Hres|exact Hsorted].
Defined.

(** * Further properties of the class *)

Section further.
Context {R : Type} `{Scalar R}.
Implicit Types (self : LSH R) (m : index_map) (u : nat) (h : Z).

Lemma concat_map_nil {A B : Type} (l : list A) :
  concat (map (λ _, @nil B) l) = [].
Proof. induction l as [|x l IH]; [done|]. by cbn [map concat app]. Qed.

Lemma bucket_empty u h : bucket ∅ u h = [].
Proof. unfold bucket. by rewrite lookup_empty. Qed.

(** The loops write at the universes of the hash values only. *)
Lemma fill_lookup_outside (c : nat → nat → Z) (U N : nat) m u :
  (U ≤ u)%nat →
  fold_left
    (λ m i, fold_left (λ m u, append_index m u (c u i) i) (seq 0 U) m)
    (seq 0 N) m !! u
  = m !! u.
Proof.
  intros Hu.
  assert (∀ i (us : list nat) m', (∀ u', u' ∈ us → u' ≠ u) →
            fold_left (λ m u, append_index m u (c u i) i) us m' !! u
            = m' !! u) as Hinner.
  { intros i us. induction us as [|u' us IH]; intros m' Hne; [done|].
    cbn [fold_left]. rewrite IH by (intros; apply Hne; by right).
    rewrite append_index_store. apply store_lookup_ne.
    intros ->. by apply (Hne u'); [left|]. }
  revert m. induction N as [|N IH]; intros m; [done|].
  rewrite seq_S, fold_left_app. cbn [fold_left Nat.add].
  rewrite Hinner; [apply IH|].
  intros u' Hin%elem_of_seq. lia.
Qed.

End further.

(** [make_hash_table] on a corpus of the wrong width raises the
    [ValueError] of [np.matmul], and the table that was there is lost: the
    dictionary is empty afterwards, so that a later one-row query of the
    right width (with other than one universe) returns the empty list. *)
Theorem failed_build_empties_table {R : Type} `{Scalar R}
    (self : LSH R) (vectors vector : ndarray2 R) (n_most_common : Z) :
  cols2 vectors ≠ dim1 (planes self) →
  make_hash_table self vectors
  = (Err ValueError_matmul_core_dimension, set_hash_to_index_map self (Some ∅))
  ∧ (rows2 vector = 1%nat → cols2 vector = dim1 (planes self) →
     dim0 (planes self) ≠ 1%nat →
     (get_similar_samples_indices (make_hash_table self vectors).2 vector
        n_most_common).1 = Ok []).
Proof.
  intros Hcols. rewrite make_hash_table_Err by done. split; [done|].
  intros Hrows Hcols' HU. cbn [snd].
  destruct (query_Ok (set_hash_to_index_map self (Some ∅)) vector
              n_most_common ∅ eq_refl Hrows Hcols' HU) as (hv & _ & ->).
  cbn [fst]. f_equal.
  rewrite (map_ext _ (λ _, []) (λ u, bucket_empty u _)), concat_map_nil.
  unfold collections.most_common. cbn. by rewrite take_nil.
Qed.

Lemma failed_build_empties_table_witness :
  let self := (make_hash_table (new_LSH by_parity 2 4 3)
                 (rows 2 [[1; 2]; [-1; 0]])).2 in
  let vectors := rows 3 [[1; 2; 3]] in
  let vector := rows 2 [[1; 2]] in
  cols2 vectors ≠ dim1 (planes self)
  ∧ (get_similar_samples_indices self vector 5).1 = Ok [0%nat]
  ∧ (get_similar_samples_indices (make_hash_table self vectors).2 vector 5).1
    = Ok [].
Proof.
  intros self vectors vector.
  assert (cols2 vectors ≠ dim1 (planes self)) as Hcols by (simpl; lia).
  split; [exact Hcols|]. split; [reflexivity|].
  apply (failed_build_empties_table self vectors vector 5 Hcols);
    [reflexivity|reflexivity|simpl; lia].
Defined.

(** [make_hash_table] replaces the table, it does not add to it: its
    outcome and the object it leaves are the same whatever calls of
    [make_hash_table] or [get_similar_samples_indices] came before. *)
Theorem build_forgets_history {R : Type} `{Scalar R}
    (self : LSH R) (earlier vectors vector : ndarray2 R) (n_most_common : Z) :
  make_hash_table (make_hash_table self earlier).2 vectors
  = make_hash_table self vectors
  ∧ make_hash_table
      (get_similar_samples_indices self vector n_most_common).2 vectors
    = make_hash_table self vectors.
Proof.
  assert (∀ d, make_hash_table (set_hash_to_index_map self d) vectors
               = make_hash_table self vectors) as Hset by done.
  split.
  - destruct (make_hash_table_frame self earlier) as (d & ->). apply Hset.
  - destruct (query_effect self vector n_most_common) as (d & -> & _).
    apply Hset.
Qed.

(** What [make_hash_table] stores: for each universe, the list at hash
    value [h] holds the samples whose hash value in that universe is [h],
    in the order of the corpus; the keys of the outer dictionary are the
    universes, provided the corpus is not empty (otherwise there is no
    key). *)
Theorem build_table_contents {R : Type} `{Scalar R}
    (self : LSH R) (vectors : ndarray2 R) :
  cols2 vectors = dim1 (planes self) →
  ∃ hash_values m,
    get_hash_values self vectors = Ok hash_values
    ∧ make_hash_table self vectors
      = (Ok (), set_hash_to_index_map self (Some m))
    ∧ (∀ u h, (u < dim0 (planes self))%nat →
         bucket m u h
         = filter (λ i, at2 hash_values u i = h) (seq 0 (rows2 vectors)))
    ∧ (∀ u, is_Some (m !! u)
            ↔ (u < dim0 (planes self))%nat ∧ (0 < rows2 vectors)%nat).
Proof.
  intros Hcols.
  destruct (get_hash_values_Ok self vectors Hcols) as (hv & Hhv & Hr & Hc & _).
  destruct (make_hash_table_Ok self vectors Hcols)
    as (hv' & m & Hhv' & Hmake & Hstored).
  rewrite Hhv in Hhv'. injection Hhv' as <-.
  exists hv, m. split; [done|]. split; [done|].
  assert (∀ u h, (u < dim0 (planes self))%nat →
            bucket m u h
            = filter (λ i, at2 hv u i = h) (seq 0 (rows2 vectors))) as Hbucket.
  { intros u h Hu. rewrite bucket_inner, Hstored. cbv zeta.
    destruct (filter _ _) as [|x l] eqn:Hl.
    - by destruct (decide _).
    - by rewrite decide_True. }
  split; [done|]. intros u. split.
  - intros Hsome.
    destruct (decide (u < dim0 (planes self))%nat) as [Hu|Hu].
    + split; [done|]. destruct (rows2 vectors) as [|N] eqn:HN; [|lia].
      exfalso. destruct Hsome as [b Hb].
      assert (make_hash_table self vectors
              = (Ok (), set_hash_to_index_map self (Some ∅))) as Hempty.
      { unfold make_hash_table.
        rewrite (get_hash_values_planes self) by done. rewrite Hhv.
        by rewrite fill_hash_table_loops, Hc. }
      rewrite Hempty in Hmake. injection Hmake as <-.
      by rewrite lookup_empty in Hb.
    + exfalso. destruct Hsome as [b Hb].
      assert (m = fill_hash_table hv ∅) as ->.
      { unfold make_hash_table in Hmake.
        rewrite (get_hash_values_planes self) in Hmake by done.
        rewrite Hhv in Hmake. by injection Hmake. }
      rewrite fill_hash_table_loops, Hr in Hb.
      rewrite fill_lookup_outside in Hb by lia.
      by rewrite lookup_empty in Hb.
  - intros [Hu HN].
    assert (0%nat ∈ bucket m u (at2 hv u 0%nat)) as Hin.
    { rewrite Hbucket by done. apply list_elem_of_filter.
      split; [done|]. apply elem_of_seq. lia. }
    rewrite bucket_inner in Hin. unfold inner in Hin.
    destruct (m !! u) as [b|]; [done|].
    cbn [default] in Hin. rewrite lookup_empty in Hin.
    by apply elem_of_nil in Hin.
Qed.

Lemma build_table_contents_witness :
  let self := new_LSH by_parity 2 4 3 in
  let vectors := rows 2 [[1; 2]; [-1; 0]; [1; 2]] in
  cols2 vectors = dim1 (planes self)
  ∧ ∃ m,
      make_hash_table self vectors
      = (Ok (), set_hash_to_index_map self (Some m))
      ∧ bucket m 0 3 = [0; 2]%nat.
Proof.
  intros self vectors. split; [reflexivity|].
  destruct (build_table_contents self vectors eq_refl)
    as (hv & m & Hhv & Hmake & Hbucket & _).
  exists m. split; [exact Hmake|].
  rewrite (Hbucket 0%nat 3) by (simpl; lia).
  injection Hhv as <-. reflexivity.
Defined.



(** ** Further properties of queries *)

Section answers.
Context {R : Type} `{Scalar R}.
Implicit Types (self : LSH R) (m : index_map) (u : nat) (h : Z).

(** An answer is a prefix of the ranked keys of a counter. *)
Lemma query_result_form self (vector : ndarray2 R) (n_most_common : Z) l :
  (get_similar_samples_indices self vector n_most_common).1 = Ok l →
  ∃ similar_indices,
    l = map fst (collections.most_common
                   (collections.Counter similar_indices) n_most_common).
Proof.
  unfold get_similar_samples_indices.
  destruct (get_hash_values self vector) as [hv|e]; [|done].
  destruct (iterate (np.squeeze hv)) as [items|e]; [|done].
  destruct (collect (enumerate items) [] (hash_to_index_map self))
    as [[similar|e] d]; [|done].
  intros [= <-]. by exists similar.
Qed.

Lemma query_result_sound (N : nat) self (vector : ndarray2 R)
    (n_most_common : Z) l :
  built N self →
  (get_similar_samples_indices self vector n_most_common).1 = Ok l →
  NoDup l ∧ ∀ x, x ∈ l → (x < N)%nat.
Proof.
  intros Hbuilt Hl.
  destruct (built_indices_below N self Hbuilt) as (m & Hm & Hbelow).
  destruct (query_effect self vector n_most_common) as (d & _ & Hd).
  rewrite Hm in Hd. destruct Hd as (m' & _ & _ & Hres).
  destruct (Hres l Hl) as [Hnd Hfrom]. split; [done|].
  intros x Hx. destruct (Hfrom x Hx) as (u & h & Hin). by eapply Hbelow.
Qed.

(** The loop collects the same lists from two dictionaries that read the
    same. *)
Lemma collect_result_reads (items : list (nat * item)) similar_indices m m' :
  (∀ u h, bucket m' u h = bucket m u h) →
  (collect items similar_indices (Some m')).1
  = (collect items similar_indices (Some m)).1.
Proof.
  revert similar_indices m m'.
  induction items as [|[u k] items IH]; intros similar_indices m m' Hreads;
    [done|].
  cbn [collect]. destruct k as [h|row]; [|done].
  rewrite !getitem_bucket_touch, Hreads. apply IH.
  intros u' h'.
  rewrite (proj1 (reads_preserved_touch m' u h)).
  by rewrite (proj1 (reads_preserved_touch m u h)).
Qed.

Lemma query_result_congr self d (vector : ndarray2 R) (n_most_common : Z) :
  match hash_to_index_map self with
  | None => d = None
  | Some m => ∃ m', d = Some m' ∧ ∀ u h, bucket m' u h = bucket m u h
  end →
  (get_similar_samples_indices (set_hash_to_index_map self d) vector
     n_most_common).1
  = (get_similar_samples_indices self vector n_most_common).1.
Proof.
  intros Hd. unfold get_similar_samples_indices.
  rewrite (get_hash_values_planes self (set_hash_to_index_map self d)) by done.
  destruct (get_hash_values self vector) as [hv|e]; [|done].
  destruct (iterate (np.squeeze hv)) as [items|e]; [|done].
  cbn [hash_to_index_map set_hash_to_index_map].
  destruct (hash_to_index_map self) as [m|].
  - destruct Hd as (m' & -> & Hreads).
    pose proof (collect_result_reads (enumerate items) [] m m' Hreads) as Heq.
    destruct (collect (enumerate items) [] (Some m')) as [[s'|e'] d'],
             (collect (enumerate items) [] (Some m)) as [[s|e] d0];
      cbn [fst] in Heq |- *; congruence.
  - by rewrite Hd.
Qed.

Lemma count_occ_filter_seq (P : nat → Prop) `{!∀ i, Decision (P i)}
    (N x : nat) :
  count_occ Nat.eq_dec (filter P (seq 0 N)) x
  = if decide ((x < N)%nat ∧ P x) then 1%nat else 0%nat.
Proof.
  destruct (decide _) as [[Hx HP]|Hn].
  - apply NoDup_count_occ'.
    + apply NoDup_ListNoDup, NoDup_filter, NoDup_seq.
    + apply list_elem_of_In, list_elem_of_filter. split; [done|].
      apply elem_of_seq. lia.
  - apply count_occ_not_In.
    intros [HP Hin%elem_of_seq]%list_elem_of_In%list_elem_of_filter.
    apply Hn. split; [lia|done].
Qed.

(** The votes of a sample are the universes in which it is found. *)
Lemma count_occ_collected (hv : ndarray2 Z) (c : nat → Z) (U N : nat) m
    (us : list nat) (x : nat) :
  (∀ u h, (u < U)%nat →
     bucket m u h = filter (λ i, at2 hv u i = h) (seq 0 N)) →
  (∀ u, u ∈ us → (u < U)%nat) →
  count_occ Nat.eq_dec (concat (map (λ u, bucket m u (c u)) us)) x
  = if decide (x < N)%nat
    then length (filter (λ u, at2 hv u x = c u) us) else 0%nat.
Proof.
  intros Hbucket. induction us as [|u us IH]; intros Hus.
  { by destruct (decide _). }
  cbn [map concat]. rewrite count_occ_app, IH
    by (intros; apply Hus; by right).
  rewrite Hbucket by (apply Hus; left).
  rewrite (count_occ_filter_seq (λ i, at2 hv u i = c u)), filter_cons.
  destruct (decide (x < N)%nat) as [Hx|Hx].
  - destruct (decide (at2 hv u x = c u)) as [Heq|Hne].
    + by rewrite decide_True.
    + rewrite decide_False; [done|]. tauto.
  - rewrite decide_False; [done|]. tauto.
Qed.

Lemma ranked_keys_sorted (g : nat → nat) (ranked : list (nat * nat)) :
  StronglySorted by_count_desc ranked →
  (∀ a, a ∈ ranked → a.2 = g a.1) →
  StronglySorted (λ x y, (g y ≤ g x)%nat) (map fst ranked).
Proof.
  induction 1 as [|a ranked Hs IH Ha]; intros Hg; cbn [map]; [constructor|].
  constructor.
  - apply IH. intros b Hb. apply Hg. by right.
  - apply Forall_forall. intros y [b [<- Hb]]%list_elem_of_In%in_map_iff.
    apply list_elem_of_In in Hb.
    rewrite Forall_forall in Ha. specialize (Ha b Hb).
    unfold by_count_desc in Ha.
    rewrite <- (Hg a) by left. rewrite <- (Hg b) by (by right). done.
Qed.

Lemma StronglySorted_take {A : Type} (P : relation A) (n : nat) (l : list A) :
  StronglySorted P l → StronglySorted P (take n l).
Proof.
  intros Hl. revert n. induction Hl as [|a l Hl IH Ha]; intros n.
  { rewrite take_nil. constructor. }
  destruct n as [|n]; cbn [take]; constructor; [apply IH|].
  by apply Forall_take.
Qed.

End answers.

(** An answer never has more than [n_most_common] elements, nor more than
    the corpus has vectors: it is empty when [n_most_common <= 0] and
    when the table was made from an empty corpus. *)
Theorem query_result_length {R : Type} `{Scalar R}
    (N : nat) (self : LSH R) (vector : ndarray2 R) (n_most_common : Z)
    (l : list nat) :
  built N self →
  (get_similar_samples_indices self vector n_most_common).1 = Ok l →
  (length l ≤ Z.to_nat n_most_common)%nat
  ∧ (length l ≤ N)%nat
  ∧ (n_most_common ≤ 0 ∨ N = 0%nat → l = []).
Proof.
  intros Hbuilt Hl.
  assert (length l ≤ Z.to_nat n_most_common)%nat as Hk.
  { destruct (query_result_form self vector n_most_common l Hl) as (s & ->).
    unfold collections.most_common.
    rewrite length_map. apply firstn_le_length. }
  assert (length l ≤ N)%nat as HN.
  { destruct (query_result_sound N self vector n_most_common l Hbuilt Hl)
      as [Hnd Hbelow].
    rewrite <- (length_seq N 0). apply submseteq_length, NoDup_submseteq; [done|].
    intros x Hx. apply elem_of_seq. specialize (Hbelow x Hx). lia. }
  split; [done|]. split; [done|].
  intros Hzero. apply length_zero_iff_nil. lia.
Qed.

Lemma query_result_length_witness :
  let self := (make_hash_table (new_LSH by_parity 2 4 3)
                 (rows 2 [[1; 2]; [-1; 0]; [1; 2]])).2 in
  let vector := rows 2 [[1; 2]] in
  built 3 self
  ∧ (get_similar_samples_indices self vector 1).1 = Ok [0%nat]
  ∧ (length [0%nat] ≤ Z.to_nat 1)%nat.
Proof.
  intros self vector.
  assert (built 3 self) as Hbuilt.
  { apply (built_make 3 (new_LSH by_parity 2 4 3)
             (rows 2 [[1; 2]; [-1; 0]; [1; 2]])); [reflexivity|].
    vm_compute. reflexivity. }
  assert ((get_similar_samples_indices self vector 1).1 = Ok [0%nat]) as Hres
    by (vm_compute; reflexivity).
  split; [exact Hbuilt|]. split; [exact Hres|].
  exact (proj1 (query_result_length 3 self vector 1 [0%nat] Hbuilt Hres)).
Defined.

(** A query does not change the answer of any later query: whatever the
    first call added to the dictionary, the second call returns what it
    would have returned without the first. *)
Theorem query_unaffected_by_earlier_query {R : Type} `{Scalar R}
    (self : LSH R) (v1 v2 : ndarray2 R) (n1 n2 : Z) :
  (get_similar_samples_indices
     (get_similar_samples_indices self v1 n1).2 v2 n2).1
  = (get_similar_samples_indices self v2 n2).1.
Proof.
  destruct (query_effect self v1 n1) as (d & -> & Hd).
  apply query_result_congr.
  destruct (hash_to_index_map self) as [m|]; [|done].
  destruct Hd as (m' & -> & (Hreads & _) & _). by exists m'.
Qed.

(** The ranking of an answer in terms of the hash values: after
    [make_hash_table] on a corpus, a one-row query (with other than one
    universe) returns samples of the corpus in decreasing order of the
    number of universes in which their hash value is that of the query;
    every sample returned agrees with the query in at least one universe;
    and when [n_most_common] is at least the size of the corpus, every
    sample that agrees in some universe is returned. *)
Theorem query_orders_by_agreement {R : Type} `{Scalar R}
    (self : LSH R) (corpus vector : ndarray2 R) (n_most_common : Z) :
  cols2 corpus = dim1 (planes self) →
  rows2 vector = 1%nat →
  cols2 vector = dim1 (planes self) →
  dim0 (planes self) ≠ 1%nat →
  ∃ corpus_hashes query_hashes l,
    get_hash_values self corpus = Ok corpus_hashes
    ∧ get_hash_values self vector = Ok query_hashes
    ∧ (get_similar_samples_indices (make_hash_table self corpus).2 vector
         n_most_common).1 = Ok l
    ∧ StronglySorted
        (λ x y, (agreement corpus_hashes query_hashes (dim0 (planes self)) y
                 ≤ agreement corpus_hashes query_hashes (dim0 (planes self)) x)%nat)
        l
    ∧ (∀ x, x ∈ l →
         (x < rows2 corpus)%nat
         ∧ (1 ≤ agreement corpus_hashes query_hashes (dim0 (planes self)) x)%nat)
    ∧ ((rows2 corpus ≤ Z.to_nat n_most_common)%nat →
       ∀ x, (x < rows2 corpus)%nat →
         (1 ≤ agreement corpus_hashes query_hashes (dim0 (planes self)) x)%nat →
         x ∈ l).
Proof.
  intros Hcols Hrows Hcolsq HU.
  destruct (make_hash_table_Ok self corpus Hcols)
    as (hv & m & Hhv & Hmake & Hstored).
  assert (∀ u h, (u < dim0 (planes self))%nat →
            bucket m u h
            = filter (λ i, at2 hv u i = h) (seq 0 (rows2 corpus))) as Hbucket.
  { intros u h Hu. rewrite bucket_inner, Hstored. cbv zeta.
    destruct (filter _ _) as [|x l] eqn:Hl.
    - by destruct (decide _).
    - by rewrite decide_True. }
  rewrite Hmake. cbn [snd].
  set (self' := set_hash_to_index_map self (Some m)).
  destruct (query_Ok self' vector n_most_common m eq_refl Hrows Hcolsq HU)
    as (hvq & Hhvq & Hquery).
  rewrite (get_hash_values_planes self self') in Hhvq by done.
  change (dim0 (planes self')) with (dim0 (planes self)) in Hquery.
  set (U := dim0 (planes self)) in *.
  set (similar := concat (map (λ u, bucket m u (at2 hvq u 0%nat)) (seq 0 U)))
    in *.
  set (ranked := collections.sorted_by_count (collections.Counter similar)).
  exists hv, hvq, (take (Z.to_nat n_most_common) (map fst ranked)).
  split; [done|]. split; [done|]. split.
  { rewrite Hquery. cbn [fst]. unfold collections.most_common.
    by rewrite firstn_map. }
  assert (∀ x, count_occ Nat.eq_dec similar x
               = if decide (x < rows2 corpus)%nat
                 then agreement hv hvq U x else 0%nat) as Hcount.
  { intros x. unfold similar, agreement.
    apply (count_occ_collected hv (λ u, at2 hvq u 0%nat) U); [done|].
    intros u Hu%elem_of_seq. lia. }
  destruct (Counter_keys similar) as [Hnd Hkeys].
  assert (ranked ≡ₚ collections.Counter similar) as Hperm
    by apply sorted_by_count_perm.
  assert (∀ x, x ∈ map fst ranked ↔ x ∈ similar) as Hranked.
  { intros x. rewrite <- Hkeys.
    by rewrite (Permutation_map fst Hperm). }
  assert (∀ x, x ∈ similar ↔
               (x < rows2 corpus)%nat ∧ (1 ≤ agreement hv hvq U x)%nat)
    as Hsimilar.
  { intros x. rewrite list_elem_of_In, (count_occ_In Nat.eq_dec), Hcount.
    destruct (decide (x < rows2 corpus)%nat); lia. }
  assert (∀ a, a ∈ ranked → a.2 = agreement hv hvq U a.1) as Hvotes.
  { intros [x k] Hin. cbn [fst snd].
    assert (x ∈ similar) as Hx.
    { apply Hranked, list_elem_of_In, in_map_iff. exists (x, k).
      split; [done|]. by apply list_elem_of_In. }
    rewrite Hperm in Hin.
    rewrite <- (votes_item _ x k Hnd Hin), Counter_votes, Hcount.
    apply Hsimilar in Hx as [Hx _]. by rewrite decide_True. }
  split; [|split].
  - apply StronglySorted_take.
    apply (ranked_keys_sorted (agreement hv hvq U)); [|done].
    apply sorted_by_count_sorted.
  - intros x Hx. apply Hsimilar, Hranked. by eapply subseteq_take.
  - intros Hn x Hx Hagree. rewrite take_ge.
    + apply Hranked, Hsimilar. done.
    + rewrite length_map, (Permutation_length Hperm), <- (length_map fst).
      etrans; [|exact Hn]. rewrite <- (length_seq (rows2 corpus) 0).
      apply submseteq_length, NoDup_submseteq; [done|].
      intros y Hy%Hkeys%Hsimilar. apply elem_of_seq. lia.
Qed.

Lemma query_orders_by_agreement_witness :
  let self := new_LSH by_parity 2 4 3 in
  let corpus := rows 2 [[1; 2]; [-1; 0]; [1; 2]] in
  let vector := rows 2 [[1; 2]] in
  (cols2 corpus = dim1 (planes self) ∧ rows2 vector = 1%nat
   ∧ cols2 vector = dim1 (planes self) ∧ dim0 (planes self) ≠ 1%nat)
  ∧ ∃ corpus_hashes query_hashes l,
      (get_similar_samples_indices (make_hash_table self corpus).2 vector 5).1
      = Ok l
      ∧ ∀ x, x ∈ l →
          (x < rows2 corpus)%nat
          ∧ (1 ≤ agreement corpus_hashes query_hashes (dim0 (planes self)) x)%nat.
Proof.
  intros self corpus vector.
  assert (dim0 (planes self) ≠ 1%nat) as HU by (simpl; lia).
  split; [repeat split; exact HU|].
  destruct (query_orders_by_agreement self corpus vector 5
              eq_refl eq_refl eq_refl HU)
    as (hv & hvq & l & _ & _ & Hres & _ & Hin & _).
  exists hv, hvq, l. split; [exact Hres|exact Hin].
Defined.

(** A query with a batch of other than one vector is not answered: with
    two universes or more on a built object it raises the [TypeError] of
    using an array as a dictionary key, for every [n_most_common]; the
    only trace it leaves is the key of universe 0 in the outer
    dictionary, if it was missing. *)
Theorem batch_query_raises {R : Type} `{Scalar R}
    (self : LSH R) (vector : ndarray2 R) (n_most_common : Z) (m : index_map) :
  hash_to_index_map self = Some m →
  rows2 vector ≠ 1%nat →
  cols2 vector = dim1 (planes self) →
  (2 ≤ dim0 (planes self))%nat →
  get_similar_samples_indices self vector n_most_common
  = (Err TypeError_unhashable_ndarray,
     set_hash_to_index_map self (Some (<[0%nat := inner m 0%nat]> m))).
Proof.
  intros Hm Hrows Hcols HU.
  destruct (get_hash_values_Ok self vector Hcols) as (hv & Hhv & Hr & Hc & _).
  unfold get_similar_samples_indices. rewrite Hhv. unfold np.squeeze.
  destruct (decide (rows2 hv = 1%nat)) as [Hr1|_]; [lia|].
  destruct (decide (cols2 hv = 1%nat)) as [Hc1|_]; [congruence|].
  cbn [iterate]. unfold rows_of.
  rewrite map_map, enumerate_map_seq, Hm, Hr.
  destruct (dim0 (planes self)) as [|U]; [lia|]. done.
Qed.

Lemma batch_query_raises_witness :
  let self := (make_hash_table (new_LSH by_parity 2 4 3)
                 (rows 2 [[1; 2]; [-1; 0]])).2 in
  let vector := rows 2 [[1; 2]; [1; 2]] in
  ∃ m,
    (hash_to_index_map self = Some m ∧ rows2 vector ≠ 1%nat
     ∧ cols2 vector = dim1 (planes self) ∧ (2 ≤ dim0 (planes self))%nat)
    ∧ (get_similar_samples_indices self vector 5).1
      = Err TypeError_unhashable_ndarray.
Proof.
  intros self vector. eexists.
  assert (rows2 vector ≠ 1%nat) as Hrows by (simpl; lia).
  assert (2 ≤ dim0 (planes self))%nat as HU by (simpl; lia).
  split; [split; [reflexivity|]; split; [exact Hrows|];
          split; [reflexivity|exact HU]|].
  by rewrite (batch_query_raises self vector 5 _ eq_refl Hrows eq_refl HU).
Defined.

(** The number of buckets against the requested [max_buckets]: it is
    [max_buckets] exactly when that is a power of two; it is always more
    than half of [max_buckets] and at most twice [max_buckets]; and for
    [max_buckets < 2^32] it is the power of two below, at most
    [max_buckets]. *)
Theorem n_buckets_exact_iff_power_of_two {R : Type} `{Scalar R} `{Log2}
    (normal : nat → nat → nat → R) (vector_dims max_buckets n_universes : Z)
    (self : LSH R) :
  __init__ normal vector_dims max_buckets n_universes = Ok self →
  (n_buckets self = max_buckets ↔ ∃ k, 0 ≤ k ∧ max_buckets = 2 ^ k)
  ∧ max_buckets < 2 * n_buckets self
  ∧ n_buckets self ≤ 2 * max_buckets
  ∧ (max_buckets < 2 ^ 32 →
     n_buckets self = 2 ^ Z.log2 max_buckets ∧ n_buckets self ≤ max_buckets).
Proof.
  intros Hinit. destruct (init_planes _ _ _ _ _ Hinit) as (Hm & Hp & -> & _).
  rewrite Hp.
  pose proof (n_planes_enclosed max_buckets ltac:(lia)) as Hlog.
  pose proof (Z.log2_spec max_buckets ltac:(lia)) as Hspec.
  pose proof (Z.log2_nonneg max_buckets) as He.
  rewrite <- Z.add_1_r in Hspec.
  set (n_planes := floor_of_log2 (float64_of_int max_buckets)) in *.
  assert (2 ^ Z.log2 max_buckets ≤ 2 ^ n_planes ≤ 2 ^ (Z.log2 max_buckets + 1))
    as Hpow by (split; apply Z.pow_le_mono_r; lia).
  rewrite Z.pow_add_r, Z.pow_1_r in Hspec, Hpow by lia.
  split; [|split; [lia|split; [lia|]]].
  - split.
    + intros Heq. exists n_planes. split; [lia|done].
    + intros (k & Hk & ->). unfold n_planes.
      by rewrite n_planes_power_of_two.
  - intros Hsmall. unfold n_planes.
    rewrite n_planes_below_2_32 by lia. lia.
Qed.

Lemma n_buckets_exact_iff_power_of_two_witness :
  ∃ self : LSH Z,
    __init__ all_ones 300 1024 25 = Ok self
    ∧ (n_buckets self = 1024 ↔ ∃ k, 0 ≤ k ∧ 1024 = 2 ^ k)
    ∧ 1024 < 2 * n_buckets self
    ∧ n_buckets self ≤ 2 * 1024.
Proof.
  assert (∃ self : LSH Z, __init__ all_ones 300 1024 25 = Ok self)
    as [self Hinit] by (eexists; reflexivity).
  exists self. split; [exact Hinit|].
  destruct (n_buckets_exact_iff_power_of_two all_ones 300 1024 25 self Hinit)
    as (Hiff & Hlow & Hhigh & _).
  split; [exact Hiff|]. split; [exact Hlow|exact Hhigh].
Defined.

(** The statements after the class never raise, whatever the random
    numbers: the two arrays printed have one row per universe, 25, and one
    column per vector, 1 and 13, with entries in [[0, 1024)]; the list
    printed has at most 5 elements, distinct and below 11130. *)
Theorem main_runs {R : Type} `{Scalar R} `{Log2}
    (normal : nat → nat → nat → R) (rand1 rand2 rand3 rand4 : nat → nat → R) :
  ∃ printed1 printed2 sim,
    main normal rand1 rand2 rand3 rand4 = Ok (printed1, printed2, sim)
    ∧ (rows2 printed1, cols2 printed1) = (25%nat, 1%nat)
    ∧ (rows2 printed2, cols2 printed2) = (25%nat, 13%nat)
    ∧ (∀ u n, 0 ≤ at2 printed1 u n < 1024 ∧ 0 ≤ at2 printed2 u n < 1024)
    ∧ NoDup sim
    ∧ (length sim ≤ 5)%nat
    ∧ ∀ x, x ∈ sim → (Z.of_nat x < 11130).
Proof.
  assert (floor_of_log2 (float64_of_int 1024) = 10) as Hplanes.
  { change 1024 with (2 ^ 10). by apply n_planes_power_of_two. }
  unfold main.
  rewrite init_Ok; [|lia|rewrite Hplanes; unfold array_fits; done].
  rewrite Hplanes.
  set (lsh := {| n_buckets := 2 ^ 10; n_universes := 25;
                 planes := Array3 (Z.to_nat 25) (Z.to_nat 300)
                             (Z.to_nat 10) normal;
                 hash_to_index_map := None |}).
  assert (dim2 (planes lsh) ≤ 63)%nat as HP by (cbn; lia).
  assert (∀ bits, 0 ≤ spec_pack bits (dim2 (planes lsh)) < 1024) as Hrange.
  { intros bits. apply (spec_pack_bounds bits (dim2 (planes lsh))). }
  destruct (get_hash_values_Ok lsh (random_rand rand1 1 300) eq_refl)
    as (p1 & Hp1 & Hr1 & Hc1 & _).
  destruct (get_hash_values_Ok lsh (random_rand rand2 13 300) eq_refl)
    as (p2 & Hp2 & Hr2 & Hc2 & _).
  rewrite Hp1, Hp2.
  set (corpus := random_rand rand3 (Z.to_nat 11130) 300).
  destruct (make_hash_table_Ok lsh corpus eq_refl)
    as (hv & m & _ & Hmake & _).
  rewrite Hmake.
  set (lsh' := set_hash_to_index_map lsh (Some m)).
  assert (built (Z.to_nat 11130) lsh') as Hbuilt.
  { apply (built_make _ lsh corpus); [reflexivity|exact Hmake]. }
  assert (dim0 (planes lsh') ≠ 1%nat) as HU by (cbn; lia).
  destruct (query_Ok lsh' (random_rand rand4 1 300) 5 m
              eq_refl eq_refl eq_refl HU) as (hvq & _ & Hquery).
  pose proof (f_equal fst Hquery) as Hres. cbn [fst] in Hres.
  rewrite Hquery.
  eexists p1, p2, _. split; [reflexivity|].
  split; [by rewrite Hr1, Hc1|]. split; [by rewrite Hr2, Hc2|].
  split.
  { intros u n.
    rewrite (hash_value_spec_pack lsh _ p1 u n HP Hp1).
    rewrite (hash_value_spec_pack lsh _ p2 u n HP Hp2).
    split; apply Hrange. }
  destruct (query_result_sound _ lsh' _ 5 _ Hbuilt Hres) as [Hnd Hbelow].
  split; [exact Hnd|]. split.
  - unfold collections.most_common. rewrite length_map.
    apply (firstn_le_length 5).
  - intros x Hx. specialize (Hbelow x Hx). lia.
Qed.

(** * Minimum edit distance *)

Section edit_distance.
Context {A : Type} `{EqDecision A}.
Variables (source target : list A) (ins del rep : Z).
Hypothesis (Hins : 0 ≤ ins) (Hdel : 0 ≤ del) (Hrep : 0 ≤ rep).

Local Abbreviation D := (prefix_distance source target ins del rep).
Local Abbreviation m := (length source).
Local Abbreviation n := (length target).
Local Abbreviation filled := (filled_to source target ins del rep).

Lemma prefix_distance_row_0 (j : nat) : D 0 j = Z.of_nat j * ins.
Proof. done. Qed.

Lemma prefix_distance_column_0 (i : nat) : D i 0 = Z.of_nat i * del.
Proof. destruct i; [cbn; lia|done]. Qed.

Lemma prefix_distance_step (i j : nat) :
  D (S i) (S j)
  = min3 (D i (S j) + del) (D (S i) j + ins)
         (D i j + if decide (source !! i = target !! j) then 0 else rep).
Proof. done. Qed.

Lemma prefix_distance_bounds (i j : nat) :
  0 ≤ D i j ≤ Z.of_nat i * del + Z.of_nat j * ins.
Proof.
  revert j. induction i as [|i IHi]; intros j.
  { rewrite prefix_distance_row_0. nia. }
  induction j as [|j IHj].
  { rewrite prefix_distance_column_0. nia. }
  rewrite prefix_distance_step. unfold min3.
  pose proof (IHi (S j)). pose proof (IHi j).
  destruct (decide (source !! i = target !! j)); lia.
Qed.

(** The distance is at least what the difference of the lengths costs. *)
Lemma prefix_distance_lower (i j : nat) :
  (Z.of_nat i - Z.of_nat j) * del ≤ D i j
  ∧ (Z.of_nat j - Z.of_nat i) * ins ≤ D i j.
Proof.
  revert j. induction i as [|i IHi]; intros j.
  { rewrite prefix_distance_row_0. nia. }
  induction j as [|j IHj].
  { rewrite prefix_distance_column_0. nia. }
  rewrite prefix_distance_step. unfold min3.
  pose proof (IHi (S j)). pose proof (IHi j).
  destruct (decide (source !! i = target !! j)); nia.
Qed.

Lemma at2_set2 (t : ndarray2 Z) (i j : nat) (v : Z) (i' j' : nat) :
  at2 (set2 t i j v) i' j'
  = if decide (i' = i ∧ j' = j) then v else at2 t i' j'.
Proof. done. Qed.

(** The loops keep the shape of the table. *)
Lemma fold_left_shape {B : Type} (step : ndarray2 Z → B → ndarray2 Z)
    (l : list B) (t : ndarray2 Z) :
  (∀ t x, rows2 (step t x) = rows2 t ∧ cols2 (step t x) = cols2 t) →
  rows2 (fold_left step l t) = rows2 t ∧ cols2 (fold_left step l t) = cols2 t.
Proof.
  intros Hstep. revert t. induction l as [|x l IH]; intros t; [done|].
  cbn [fold_left]. destruct (IH (step t x)) as [-> ->]. apply Hstep.
Qed.

Lemma fill_column_0_spec (k : nat) (t : ndarray2 Z) (r c : nat) :
  at2 t 0%nat 0%nat = 0 →
  Z.of_nat k * del < 2 ^ 63 →
  at2 (fill_column_0 del k t) r c
  = if decide (c = 0%nat ∧ (1 ≤ r ≤ k)%nat) then Z.of_nat r * del
    else at2 t r c.
Proof.
  intros H00 Hk. unfold fill_column_0, range_from_1.
  revert r c. induction k as [|k IH]; intros r c.
  { cbn [seq fold_left]. rewrite decide_False; [done|]. lia. }
  rewrite seq_S, fold_left_app. cbn [fold_left].
  rewrite at2_set2.
  replace (1 + k - 1)%nat with k by lia.
  rewrite (IH ltac:(nia) k 0%nat).
  assert ((if decide (0%nat = 0%nat ∧ (1 ≤ k ≤ k)%nat)
           then Z.of_nat k * del else at2 t k 0%nat) = Z.of_nat k * del) as ->.
  { destruct (decide _) as [|Hn]; [done|].
    destruct k as [|k]; [rewrite H00; lia|]. exfalso. apply Hn. lia. }
  rewrite wrap64_small by nia.
  destruct (decide (r = (1 + k)%nat ∧ c = 0%nat)) as [[-> ->]|Hne].
  - rewrite decide_True by lia. lia.
  - rewrite IH by nia.
    destruct (decide (c = 0%nat ∧ (1 ≤ r ≤ k)%nat)) as [Hin|Hout].
    + rewrite decide_True; [done|]. lia.
    + rewrite decide_False; [done|]. lia.
Qed.

Lemma fill_row_0_spec (k : nat) (t : ndarray2 Z) (r c : nat) :
  at2 t 0%nat 0%nat = 0 →
  Z.of_nat k * ins < 2 ^ 63 →
  at2 (fill_row_0 ins k t) r c
  = if decide (r = 0%nat ∧ (1 ≤ c ≤ k)%nat) then Z.of_nat c * ins
    else at2 t r c.
Proof.
  intros H00 Hk. unfold fill_row_0, range_from_1.
  revert r c. induction k as [|k IH]; intros r c.
  { cbn [seq fold_left]. rewrite decide_False; [done|]. lia. }
  rewrite seq_S, fold_left_app. cbn [fold_left].
  rewrite at2_set2.
  replace (1 + k - 1)%nat with k by lia.
  rewrite (IH ltac:(nia) 0%nat k).
  assert ((if decide (0%nat = 0%nat ∧ (1 ≤ k ≤ k)%nat)
           then Z.of_nat k * ins else at2 t 0%nat k) = Z.of_nat k * ins) as ->.
  { destruct (decide _) as [|Hn]; [done|].
    destruct k as [|k]; [rewrite H00; lia|]. exfalso. apply Hn. lia. }
  rewrite wrap64_small by nia.
  destruct (decide (r = 0%nat ∧ c = (1 + k)%nat)) as [[-> ->]|Hne].
  - rewrite decide_True by lia. lia.
  - rewrite IH by nia.
    destruct (decide (r = 0%nat ∧ (1 ≤ c ≤ k)%nat)) as [Hin|Hout].
    + rewrite decide_True; [done|]. lia.
    + rewrite decide_False; [done|]. lia.
Qed.

Hypothesis Hbound : Z.of_nat m * del + Z.of_nat n * ins + rep < 2 ^ 63.

Lemma fill_cell_filled (t : ndarray2 Z) (r c : nat) :
  (1 ≤ r ≤ m)%nat → (1 ≤ c ≤ n)%nat →
  filled t r c →
  filled (fill_cell source target ins del rep t r c) r (S c).
Proof.
  intros Hr Hc Hfilled i j Hi Hj Hwhere.
  unfold fill_cell. rewrite at2_set2.
  destruct (decide (i = r ∧ j = c)) as [[-> ->]|Hne];
    [|apply Hfilled; [done..|lia]].
  destruct r as [|r]; [lia|]. destruct c as [|c]; [lia|].
  replace (S r - 1)%nat with r by lia. replace (S c - 1)%nat with c by lia.
  rewrite !Hfilled by lia. rewrite prefix_distance_step.
  pose proof (prefix_distance_bounds r (S c)).
  pose proof (prefix_distance_bounds (S r) c).
  pose proof (prefix_distance_bounds r c).
  rewrite (wrap64_small (D r (S c) + del)) by nia.
  rewrite (wrap64_small (D (S r) c + ins)) by nia.
  destruct (decide (source !! r = target !! c));
    rewrite wrap64_small; (done || nia).
Qed.

Lemma fill_row_filled (t : ndarray2 Z) (r k : nat) :
  (1 ≤ r ≤ m)%nat → (k ≤ n)%nat →
  filled t r 1 →
  filled
    (fold_left (λ t col, fill_cell source target ins del rep t r col)
       (seq 1 k) t) r (S k).
Proof.
  intros Hr. induction k as [|k IH]; intros Hk Hfilled; [done|].
  rewrite seq_S, fold_left_app. cbn [fold_left].
  apply (fill_cell_filled _ r (1 + k)); [done|lia|]. apply IH; [lia|done].
Qed.

Lemma fill_rows_filled (t : ndarray2 Z) (k : nat) :
  (k ≤ m)%nat →
  filled t 1 1 →
  filled
    (fold_left
       (λ t row,
          fold_left (λ t col, fill_cell source target ins del rep t row col)
            (range_from_1 n) t)
       (seq 1 k) t) (S k) 1.
Proof.
  induction k as [|k IH]; intros Hk Hfilled; [done|].
  rewrite seq_S, fold_left_app. cbn [fold_left].
  set (t' := fold_left _ (seq 1 k) t) in *.
  assert (filled t' (1 + k) 1) as Hrow by (apply IH; [lia|done]).
  pose proof (fill_row_filled t' (1 + k) n ltac:(lia) ltac:(lia) Hrow) as Hdone.
  intros i j Hi Hj Hwhere. apply Hdone; [done..|]. lia.
Qed.

(** The table that [min_edit_distance] returns holds the prefix distances,
    and the distance returned is its last entry. *)
Lemma min_edit_distance_table :
  let '(cost_table, minimum_edit_distance) :=
    min_edit_distance source target ins del rep in
  rows2 cost_table = S m ∧ cols2 cost_table = S n
  ∧ (∀ i j, (i ≤ m)%nat → (j ≤ n)%nat → at2 cost_table i j = D i j)
  ∧ minimum_edit_distance = D m n.
Proof.
  unfold min_edit_distance.
  set (t0 := np_zeros (m + 1) (n + 1)).
  set (t1 := fill_column_0 del m t0).
  set (t2 := fill_row_0 ins n t1).
  set (t3 := fold_left _ (range_from_1 m) t2).
  assert (∀ r c, at2 t1 r c
                 = if decide (c = 0%nat ∧ (1 ≤ r ≤ m)%nat)
                   then Z.of_nat r * del else 0) as Ht1.
  { intros r c. unfold t1. rewrite fill_column_0_spec; [done..|nia]. }
  assert (filled t2 1 1) as Ht2.
  { intros i j Hi Hj Hwhere. unfold t2.
    rewrite fill_row_0_spec; [|by rewrite Ht1|nia].
    destruct (decide (i = 0%nat ∧ (1 ≤ j ≤ n)%nat)) as [[-> _]|Hn]; [done|].
    rewrite Ht1.
    destruct (decide (j = 0%nat ∧ (1 ≤ i ≤ m)%nat)) as [[-> _]|Hn'].
    - by rewrite prefix_distance_column_0.
    - assert (i = 0%nat) as -> by lia. assert (j = 0%nat) as -> by lia.
      cbn. lia. }
  pose proof (fill_rows_filled t2 m ltac:(lia) Ht2) as Ht3.
  assert (rows2 t3 = S m ∧ cols2 t3 = S n) as [Hrows Hcols].
  { assert (rows2 t2 = S m ∧ cols2 t2 = S n) as [<- <-].
    { unfold t2, fill_row_0.
      destruct (fold_left_shape
                  (λ t col, set2 t 0 col
                     (wrap64 (at2 t 0%nat (col - 1) + ins)))
                  (range_from_1 n) t1) as [-> ->]; [done|].
      unfold t1, fill_column_0.
      destruct (fold_left_shape
                  (λ t row, set2 t row 0
                     (wrap64 (at2 t (row - 1) 0%nat + del)))
                  (range_from_1 m) t0) as [-> ->]; [done|].
      cbn. lia. }
    apply fold_left_shape. intros t row. by apply fold_left_shape. }
  rewrite Hrows, Hcols. split; [done|]. split; [done|].
  assert (∀ i j, (i ≤ m)%nat → (j ≤ n)%nat → at2 t3 i j = D i j) as Hall.
  { intros i j Hi Hj. apply Ht3; [done..|]. lia. }
  split; [done|].
  replace (S m - 1)%nat with m by lia. replace (S n - 1)%nat with n by lia.
  by apply Hall.
Qed.

End edit_distance.

Section prefix_distances.
Context {A : Type} `{EqDecision A}.
Implicit Types (source target : list A) (ins del rep : Z).

(** Exchanging the strings and the costs of insertion and deletion
    transposes the distances. *)
Lemma prefix_distance_swap source target ins del rep (i j : nat) :
  prefix_distance target source del ins rep j i
  = prefix_distance source target ins del rep i j.
Proof.
  revert j. induction i as [|i IHi]; intros j.
  { rewrite prefix_distance_row_0, prefix_distance_column_0. done. }
  induction j as [|j IHj].
  { rewrite prefix_distance_row_0, prefix_distance_column_0. done. }
  rewrite !prefix_distance_step, IHj, !IHi. unfold min3.
  destruct (decide (target !! j = source !! i)) as [Heq|Hne].
  - rewrite decide_True by done. lia.
  - rewrite decide_False by (intros Heq; by apply Hne). lia.
Qed.

(** Equal prefixes are at distance 0. *)
Lemma prefix_distance_diagonal source ins del rep (i : nat) :
  0 ≤ ins → 0 ≤ del → 0 ≤ rep →
  prefix_distance source source ins del rep i i = 0.
Proof.
  intros Hins Hdel Hrep. induction i as [|i IH]; [cbn; lia|].
  rewrite prefix_distance_step, IH, decide_True by done.
  pose proof (prefix_distance_bounds source source ins del rep
                Hins Hdel Hrep i (S i)).
  pose proof (prefix_distance_bounds source source ins del rep
                Hins Hdel Hrep (S i) i).
  unfold min3. lia.
Qed.

(** With positive costs only equal prefixes are at distance 0. *)
Lemma prefix_distance_zero source target ins del rep (i j : nat) :
  0 < ins → 0 < del → 0 < rep →
  (i ≤ length source)%nat → (j ≤ length target)%nat →
  prefix_distance source target ins del rep i j = 0 →
  take i source = take j target.
Proof.
  intros Hins Hdel Hrep. revert j. induction i as [|i IHi]; intros j Hi Hj.
  { rewrite prefix_distance_row_0. intros Hz.
    assert (j = 0%nat) as -> by nia. done. }
  destruct j as [|j].
  { rewrite prefix_distance_column_0. nia. }
  rewrite prefix_distance_step. intros Hz.
  pose proof (prefix_distance_bounds source target ins del rep
                ltac:(lia) ltac:(lia) ltac:(lia) i (S j)).
  pose proof (prefix_distance_bounds source target ins del rep
                ltac:(lia) ltac:(lia) ltac:(lia) (S i) j).
  pose proof (prefix_distance_bounds source target ins del rep
                ltac:(lia) ltac:(lia) ltac:(lia) i j).
  unfold min3 in Hz.
  destruct (decide (source !! i = target !! j)) as [Heq|Hne]; [|lia].
  assert (prefix_distance source target ins del rep i j = 0) as Hz' by lia.
  destruct (lookup_lt_is_Some_2 source i ltac:(lia)) as [x Hx].
  rewrite (take_S_r source i x Hx).
  rewrite (take_S_r target j x) by (by rewrite <- Heq).
  f_equal. apply IHi; [lia|lia|done].
Qed.

End prefix_distances.

(** ** Properties of [min_edit_distance] *)

(** The table returned, for costs that are not negative and small enough
    for int64 ([len(source) * delete_cost + len(target) * insert_cost +
    replace_cost < 2^63]): it has one row more than [source] has
    characters and one column more than [target]; column 0 holds the
    multiples of [delete_cost], row 0 those of [insert_cost]; every other
    entry is the least of the entry above plus [delete_cost], the entry
    to the left plus [insert_cost] and the entry above to the left, plus
    [replace_cost] if the two characters differ; the distance returned is
    the last entry.  No addition wraps around. *)
Theorem min_edit_distance_table_equations {A : Type} `{EqDecision A}
    (source target : list A) (insert_cost delete_cost replace_cost : Z) :
  0 ≤ insert_cost → 0 ≤ delete_cost → 0 ≤ replace_cost →
  Z.of_nat (length source) * delete_cost
  + Z.of_nat (length target) * insert_cost + replace_cost < 2 ^ 63 →
  let '(cost_table, minimum_edit_distance) :=
    min_edit_distance source target insert_cost delete_cost replace_cost in
  (rows2 cost_table, cols2 cost_table)
  = (S (length source), S (length target))
  ∧ (∀ i, (i ≤ length source)%nat →
       at2 cost_table i 0%nat = Z.of_nat i * delete_cost)
  ∧ (∀ j, (j ≤ length target)%nat →
       at2 cost_table 0%nat j = Z.of_nat j * insert_cost)
  ∧ (∀ i j, (i < length source)%nat → (j < length target)%nat →
       at2 cost_table (S i) (S j)
       = min3 (at2 cost_table i (S j) + delete_cost)
              (at2 cost_table (S i) j + insert_cost)
              (at2 cost_table i j
               + if decide (source !! i = target !! j) then 0
                 else replace_cost))
  ∧ minimum_edit_distance
    = at2 cost_table (length source) (length target).
Proof.
  intros Hins Hdel Hrep Hbound.
  pose proof (min_edit_distance_table source target insert_cost delete_cost
                replace_cost Hins Hdel Hrep Hbound) as Htable.
  destruct (min_edit_distance source target insert_cost delete_cost
              replace_cost) as [t d].
  destruct Htable as (Hrows & Hcols & Hcells & Hd).
  split; [by rewrite Hrows, Hcols|]. split; [|split; [|split]].
  - intros i Hi. rewrite Hcells by lia. apply prefix_distance_column_0.
  - intros j Hj. rewrite Hcells by lia. apply prefix_distance_row_0.
  - intros i j Hi Hj. rewrite !Hcells by lia. apply prefix_distance_step.
  - rewrite Hcells by lia. done.
Qed.

Lemma min_edit_distance_table_equations_witness :
  (0 ≤ 1 ∧ 0 ≤ 1 ∧ 0 ≤ 2
   ∧ Z.of_nat (length (chars "asudf")) * 1
     + Z.of_nat (length (chars "asdfvbd")) * 1 + 2 < 2 ^ 63)
  ∧ let '(cost_table, minimum_edit_distance) :=
      min_edit_distance (chars "asudf") (chars "asdfvbd") 1 1 2 in
    (rows2 cost_table, cols2 cost_table) = (6%nat, 8%nat)
    ∧ minimum_edit_distance = 4.
Proof.
  assert (Z.of_nat (length (chars "asudf")) * 1
          + Z.of_nat (length (chars "asdfvbd")) * 1 + 2 < 2 ^ 63) as Hbound
    by (vm_compute; reflexivity).
  split; [repeat split; (lia || exact Hbound)|].
  pose proof (min_edit_distance_table_equations (chars "asudf")
                (chars "asdfvbd") 1 1 2 ltac:(lia) ltac:(lia) ltac:(lia)
                Hbound) as Heqs.
  destruct (min_edit_distance (chars "asudf") (chars "asdfvbd") 1 1 2)
    as [t d] eqn:Hrun.
  destruct Heqs as (Hshape & _). split; [exact Hshape|].
  apply (f_equal snd) in Hrun. vm_compute in Hrun. congruence.
Defined.

(** The distance to and from the empty string: deleting every character of
    [source], inserting every character of [target]. *)
Theorem min_edit_distance_empty {A : Type} `{EqDecision A}
    (source target : list A) (insert_cost delete_cost replace_cost : Z) :
  0 ≤ insert_cost → 0 ≤ delete_cost → 0 ≤ replace_cost →
  Z.of_nat (length source) * delete_cost
  + Z.of_nat (length target) * insert_cost + replace_cost < 2 ^ 63 →
  (min_edit_distance source [] insert_cost delete_cost replace_cost).2
  = Z.of_nat (length source) * delete_cost
  ∧ (min_edit_distance [] target insert_cost delete_cost replace_cost).2
    = Z.of_nat (length target) * insert_cost.
Proof.
  intros Hins Hdel Hrep Hbound. split.
  - pose proof (min_edit_distance_table source [] insert_cost delete_cost
                  replace_cost Hins Hdel Hrep) as Htable.
    destruct (min_edit_distance source [] insert_cost delete_cost
                replace_cost) as [t d].
    destruct Htable as (_ & _ & _ & ->); [cbn [length]; nia|].
    apply prefix_distance_column_0.
  - pose proof (min_edit_distance_table [] target insert_cost delete_cost
                  replace_cost Hins Hdel Hrep) as Htable.
    destruct (min_edit_distance [] target insert_cost delete_cost
                replace_cost) as [t d].
    destruct Htable as (_ & _ & _ & ->); [cbn [length]; nia|].
    apply prefix_distance_row_0.
Qed.

Lemma min_edit_distance_empty_witness :
  (min_edit_distance (chars "asudf") [] 1 3 2).2 = 15
  ∧ (min_edit_distance [] (chars "asdfvbd") 1 3 2).2 = 7.
Proof.
  destruct (min_edit_distance_empty (chars "asudf") (chars "asdfvbd") 1 3 2)
    as [Hs Ht]; [lia|lia|lia|vm_compute; reflexivity|].
  split; [exact Hs|exact Ht].
Defined.

(** A string is at distance 0 from itself, and with positive costs from
    no other string. *)
Theorem min_edit_distance_zero_iff_equal {A : Type} `{EqDecision A}
    (source target : list A) (insert_cost delete_cost replace_cost : Z) :
  0 < insert_cost → 0 < delete_cost → 0 < replace_cost →
  Z.of_nat (length source) * delete_cost
  + Z.of_nat (length target) * insert_cost + replace_cost < 2 ^ 63 →
  (min_edit_distance source target insert_cost delete_cost replace_cost).2 = 0
  ↔ source = target.
Proof.
  intros Hins Hdel Hrep Hbound.
  pose proof (min_edit_distance_table source target insert_cost delete_cost
                replace_cost ltac:(lia) ltac:(lia) ltac:(lia) Hbound) as Htable.
  destruct (min_edit_distance source target insert_cost delete_cost
              replace_cost) as [t d].
  destruct Htable as (_ & _ & _ & ->). cbn [snd]. split.
  - intros Hz.
    apply prefix_distance_zero in Hz; [|lia..].
    by rewrite !firstn_all in Hz.
  - intros <-. apply prefix_distance_diagonal; lia.
Qed.

Lemma min_edit_distance_zero_iff_equal_witness :
  (min_edit_distance (chars "asudf") (chars "asudf") 1 1 2).2 = 0
  ∧ chars "asudf" ≠ chars "asdfvbd"
  ∧ (min_edit_distance (chars "asudf") (chars "asdfvbd") 1 1 2).2 ≠ 0.
Proof.
  split; [|split].
  - apply (min_edit_distance_zero_iff_equal (chars "asudf") (chars "asudf")
             1 1 2); [lia|lia|lia|vm_compute; reflexivity|reflexivity].
  - discriminate.
  - intros Hz.
    apply (min_edit_distance_zero_iff_equal (chars "asudf") (chars "asdfvbd")
             1 1 2) in Hz; [discriminate|lia|lia|lia|vm_compute; reflexivity].
Defined.

(** Bounds on the distance, for costs that are not negative: it is not
    negative, at most the cost of deleting all of [source] and inserting
    all of [target], and at least the cost of the deletions or insertions
    that the difference of the lengths forces. *)
Theorem min_edit_distance_bounds {A : Type} `{EqDecision A}
    (source target : list A) (insert_cost delete_cost replace_cost : Z) :
  0 ≤ insert_cost → 0 ≤ delete_cost → 0 ≤ replace_cost →
  Z.of_nat (length source) * delete_cost
  + Z.of_nat (length target) * insert_cost + replace_cost < 2 ^ 63 →
  let d :=
    (min_edit_distance source target insert_cost delete_cost replace_cost).2 in
  0 ≤ d
  ∧ d ≤ Z.of_nat (length source) * delete_cost
        + Z.of_nat (length target) * insert_cost
  ∧ (Z.of_nat (length source) - Z.of_nat (length target)) * delete_cost ≤ d
  ∧ (Z.of_nat (length target) - Z.of_nat (length source)) * insert_cost ≤ d.
Proof.
  intros Hins Hdel Hrep Hbound.
  pose proof (min_edit_distance_table source target insert_cost delete_cost
                replace_cost Hins Hdel Hrep Hbound) as Htable.
  destruct (min_edit_distance source target insert_cost delete_cost
              replace_cost) as [t d].
  destruct Htable as (_ & _ & _ & ->). cbn [snd].
  pose proof (prefix_distance_bounds source target insert_cost delete_cost
                replace_cost Hins Hdel Hrep (length source) (length target)).
  pose proof (prefix_distance_lower source target insert_cost delete_cost
                replace_cost Hins Hdel Hrep (length source) (length target)).
  lia.
Qed.

Lemma min_edit_distance_bounds_witness :
  let d := (min_edit_distance (chars "asudf") (chars "asdfvbd") 1 1 2).2 in
  0 ≤ d ∧ d ≤ 5 * 1 + 7 * 1 ∧ (7 - 5) * 1 ≤ d.
Proof.
  destruct (min_edit_distance_bounds (chars "asudf") (chars "asdfvbd") 1 1 2)
    as (H0 & Hup & _ & Hlow); [lia|lia|lia|vm_compute; reflexivity|].
  split; [exact H0|]. split; [exact Hup|exact Hlow].
Defined.

(** *** The table with the wrap-around of int64 *)

Section table_entries.
Context {A : Type} `{EqDecision A}.
Variables (source target : list A) (ins del rep : Z).

Local Abbreviation E := (table_entry source target ins del rep).
Local Abbreviation entries := (entries_to source target ins del rep).










End table_entries.



(** * Ties, and a corpus that falls into the bucket of the query *)

Section ties.
Import collections.
Implicit Types (c : list (nat * nat)) (l : list nat) (x k v : nat).

Lemma keys_of_constant_counts v l : map fst (map (λ i, (i, v)) l) = l.
Proof. rewrite map_map. cbn [fst]. apply map_id. Qed.

Lemma count_one_fresh c x : x ∉ map fst c → count_one c x = c ++ [(x, 1%nat)].
Proof.
  induction c as [|[y k] c IH]; cbn [map fst count_one app]; [done|].
  intros [Hne Hnin]%not_elem_of_cons.
  rewrite decide_False by done. by rewrite IH.
Qed.

Lemma count_one_present c1 c2 x k :
  x ∉ map fst c1 →
  count_one (c1 ++ (x, k) :: c2) x = c1 ++ (x, S k) :: c2.
Proof.
  induction c1 as [|[y j] c1 IH]; cbn [map fst count_one app].
  { intros _. by rewrite decide_True. }
  intros [Hne Hnin]%not_elem_of_cons.
  rewrite decide_False by done. by rewrite IH.
Qed.

Lemma fold_count_one_fresh l1 l2 :
  NoDup (l1 ++ l2) →
  fold_left count_one l2 (map (λ i, (i, 1%nat)) l1)
  = map (λ i, (i, 1%nat)) (l1 ++ l2).
Proof.
  revert l1. induction l2 as [|x l2 IH]; intros l1 Hnd; cbn [fold_left].
  { by rewrite app_nil_r. }
  rewrite count_one_fresh.
  - change [(x, 1%nat)] with (map (λ i, (i, 1%nat)) [x]).
    rewrite <- map_app, IH, <- app_assoc; [done|].
    by rewrite <- app_assoc.
  - rewrite keys_of_constant_counts.
    apply NoDup_app in Hnd as (_ & Hdisj & _). intros Hin.
    apply (Hdisj x Hin). left.
Qed.

Lemma fold_count_one_again k l1 l2 :
  NoDup (l1 ++ l2) →
  fold_left count_one l2
    (map (λ i, (i, S k)) l1 ++ map (λ i, (i, k)) l2)
  = map (λ i, (i, S k)) (l1 ++ l2).
Proof.
  revert l1. induction l2 as [|x l2 IH]; intros l1 Hnd;
    cbn [fold_left map].
  { by rewrite !app_nil_r. }
  rewrite count_one_present.
  - change ((x, S k) :: map (λ i, (i, k)) l2)
      with (map (λ i, (i, S k)) [x] ++ map (λ i, (i, k)) l2).
    rewrite app_assoc, <- map_app, IH, <- app_assoc; [done|].
    by rewrite <- app_assoc.
  - rewrite keys_of_constant_counts.
    apply NoDup_app in Hnd as (_ & Hdisj & _). intros Hin.
    apply (Hdisj x Hin). left.
Qed.

(** Counting several copies of a list without repetitions. *)
Lemma count_copies {B : Type} (us : list B) l k :
  NoDup l →
  fold_left count_one (concat (map (λ _, l) us)) (map (λ i, (i, k)) l)
  = map (λ i, (i, (length us + k)%nat)) l.
Proof.
  intros Hnd. revert k. induction us as [|u us IH]; intros k; [done|].
  cbn [map concat length]. rewrite fold_left_app.
  pose proof (fold_count_one_again k [] l Hnd) as Hstep.
  cbn [map app] in Hstep. rewrite Hstep.
  rewrite IH. apply map_ext. intros i. f_equal. lia.
Qed.

Lemma Counter_copies {B : Type} (us : list B) l :
  NoDup l → us ≠ [] →
  Counter (concat (map (λ _, l) us)) = map (λ i, (i, length us)) l.
Proof.
  intros Hnd Hus. destruct us as [|u us]; [done|].
  unfold Counter. cbn [map concat length]. rewrite fold_left_app.
  pose proof (fold_count_one_fresh [] l Hnd) as Hstep.
  cbn [map app] in Hstep. rewrite Hstep.
  rewrite count_copies by done. apply map_ext. intros i. f_equal. lia.
Qed.

(** Items that all have the same count stay in their order. *)
Lemma sorted_by_count_constant v c :
  (∀ a, a ∈ c → a.2 = v) → sorted_by_count c = c.
Proof.
  induction c as [|a c IH]; intros Hv; cbn [sorted_by_count foldr]; [done|].
  fold (sorted_by_count c). rewrite IH by (intros; apply Hv; by right).
  destruct c as [|b c]; [done|]. cbn [insert_by_count].
  rewrite (Hv a) by left. rewrite (Hv b) by (right; left).
  by rewrite Nat.ltb_irrefl.
Qed.

Lemma filter_all {B : Type} (P : B → Prop) `{!∀ b, Decision (P b)}
    (bs : list B) :
  (∀ b, b ∈ bs → P b) → filter P bs = bs.
Proof.
  induction bs as [|b bs IH]; intros HP; [done|].
  rewrite filter_cons, decide_True by (apply HP; left).
  by rewrite IH by (intros; apply HP; by right).
Qed.

End ties.

(** When every vector of the corpus equals the query vector, all of them
    tie in every universe, and the query (on an object with two universes
    or more) returns the first [n_most_common] indices of the corpus in
    order: [[0, 1, ..., min(n_most_common, N) - 1]]. *)
Theorem identical_corpus_query {R : Type} `{Scalar R}
    (self : LSH R) (corpus vector : ndarray2 R) (n_most_common : Z) :
  rows2 vector = 1%nat →
  cols2 corpus = dim1 (planes self) →
  cols2 vector = dim1 (planes self) →
  (∀ i d, (i < rows2 corpus)%nat → (d < dim1 (planes self))%nat →
     at2 corpus i d = at2 vector 0%nat d) →
  (2 ≤ dim0 (planes self))%nat →
  (get_similar_samples_indices (make_hash_table self corpus).2 vector
     n_most_common).1
  = Ok (seq 0 (Z.to_nat n_most_common `min` rows2 corpus)).
Proof.
  intros Hrows1 Hcols Hcols1 Hsame HU.
  destruct (make_hash_table_Ok self corpus Hcols)
    as (hv & m & Hhv & -> & Hstored).
  cbn [snd]. set (self' := set_hash_to_index_map self (Some m)).
  destruct (query_Ok self' vector n_most_common m eq_refl Hrows1 Hcols1)
    as (hvq & Hhvq & ->); [cbn; lia|].
  cbn [fst]. f_equal.
  rewrite (get_hash_values_planes self self') in Hhvq by done.
  change (dim0 (planes self')) with (dim0 (planes self)).
  assert (map (λ u, bucket m u (at2 hvq u 0%nat)) (seq 0 (dim0 (planes self)))
          = map (λ _, seq 0 (rows2 corpus)) (seq 0 (dim0 (planes self)))) as ->.
  { apply map_ext_in. intros u [_ Hu]%list_elem_of_In%elem_of_seq.
    rewrite bucket_inner, Hstored. cbv zeta.
    rewrite filter_all.
    - destruct (rows2 corpus) as [|N]; [by destruct (decide _)|].
      rewrite decide_True; [done|]. split; [exact Hu|done].
    - intros i Hi%elem_of_seq.
      apply (hash_values_of_equal_rows self corpus vector); try done.
      intros d Hd. apply Hsame; [lia|done]. }
  destruct (dim0 (planes self)) as [|U] eqn:HdimU; [lia|].
  rewrite Counter_copies; [|apply NoDup_seq|done].
  unfold collections.most_common.
  rewrite (sorted_by_count_constant (length (seq 0 (S U)))).
  - rewrite <- firstn_map, keys_of_constant_counts. apply take_seq.
  - intros a [i [<- _]]%list_elem_of_In%in_map_iff. done.
Qed.

Lemma identical_corpus_query_witness :
  let self := new_LSH by_parity 4 4 3 in
  let corpus :=
    rows 4 [[1; 0; 0; 0]; [1; 0; 0; 0]; [1; 0; 0; 0]; [1; 0; 0; 0]] in
  let vector := rows 4 [[1; 0; 0; 0]] in
  (rows2 vector = 1%nat ∧ cols2 corpus = dim1 (planes self)
   ∧ cols2 vector = dim1 (planes self) ∧ (2 ≤ dim0 (planes self))%nat)
  ∧ (get_similar_samples_indices (make_hash_table self corpus).2 vector 2).1
    = Ok [0; 1]%nat.
Proof.
  intros self corpus vector.
  assert (2 ≤ dim0 (planes self))%nat as HU by (simpl; lia).
  split; [repeat split; exact HU|].
  apply (identical_corpus_query self corpus vector 2);
    try reflexivity; [|exact HU].
  intros i d Hi Hd.
  destruct i as [|[|[|[|i]]]]; [reflexivity..|simpl in Hi; lia].
Defined.

Lemma query_single_universe_witness :
  let self := (make_hash_table (new_LSH all_ones 4 4 1)
                 (rows 4 [[1; 0; 0; 0]])).2 in
  let vector := rows 4 [[1; 0; 0; 0]] in
  (rows2 vector = 1%nat ∧ cols2 vector = dim1 (planes self)
   ∧ dim0 (planes self) = 1%nat)
  ∧ get_similar_samples_indices self vector 5
    = (Err TypeError_iteration_over_0d, self).
Proof.
  intros self vector. split; [repeat split|].
  apply (query_single_universe self vector 5); reflexivity.
Defined.

(** Every entry of the table returned by [min_edit_distance] is itself a
    distance: the entry in row [i] and column [j] is what
    [min_edit_distance] returns for the first [i] characters of [source]
    and the first [j] of [target]. *)
Theorem min_edit_distance_table_of_prefixes {A : Type} `{EqDecision A}
    (source target : list A) (insert_cost delete_cost replace_cost : Z)
    (i j : nat) :
  0 ≤ insert_cost → 0 ≤ delete_cost → 0 ≤ replace_cost →
  Z.of_nat (length source) * delete_cost
  + Z.of_nat (length target) * insert_cost + replace_cost < 2 ^ 63 →
  (i ≤ length source)%nat → (j ≤ length target)%nat →
  at2 (min_edit_distance source target insert_cost delete_cost
         replace_cost).1 i j
  = (min_edit_distance (take i source) (take j target) insert_cost
       delete_cost replace_cost).2.
Proof.
  intros Hins Hdel Hrep Hbound Hi Hj.
  pose proof (min_edit_distance_table source target insert_cost delete_cost
                replace_cost Hins Hdel Hrep Hbound) as Htable.
  pose proof (min_edit_distance_table (take i source) (take j target)
                insert_cost delete_cost replace_cost Hins Hdel Hrep)
    as Htable'.
  rewrite !length_take in Htable'.
  replace (i `min` length source)%nat with i in Htable' by lia.
  replace (j `min` length target)%nat with j in Htable' by lia.
  destruct (min_edit_distance source target insert_cost delete_cost
              replace_cost) as [t d].
  destruct (min_edit_distance (take i source) (take j target) insert_cost
              delete_cost replace_cost) as [t' d'].
  destruct Htable as (_ & _ & Hcells & _).
  destruct Htable' as (_ & _ & _ & ->); [nia|].
  cbn [fst snd]. rewrite Hcells by done.
  assert (∀ i' j', (i' ≤ i)%nat → (j' ≤ j)%nat →
            prefix_distance (take i source) (take j target) insert_cost
              delete_cost replace_cost i' j'
            = prefix_distance source target insert_cost delete_cost
                replace_cost i' j') as Hprefix; [|by rewrite Hprefix].
  intros i'. induction i' as [|i' IHi]; intros j' Hi' Hj'; [done|].
  induction j' as [|j' IHj]; [done|].
  rewrite !prefix_distance_step, IHj, !IHi by lia.
  by rewrite !lookup_take_lt by lia.
Qed.

Lemma min_edit_distance_table_of_prefixes_witness :
  at2 (min_edit_distance (chars "asudf") (chars "asdfvbd") 1 1 2).1 3 2
  = (min_edit_distance (chars "asu") (chars "as") 1 1 2).2.
Proof.
  apply (min_edit_distance_table_of_prefixes (chars "asudf") (chars "asdfvbd")
           1 1 2 3 2);
    [lia|lia|lia|vm_compute; reflexivity|simpl; lia|simpl; lia].
Defined.

Lemma spec_pack_all_set (k : nat) :
  spec_pack (λ _, true) k = 2 ^ Z.of_nat k - 1.
Proof.
  induction k as [|k IH]; [done|]. cbn [spec_pack].
  rewrite IH, Nat2Z.inj_succ, Z.pow_succ_r by lia. lia.
Qed.

(** Vectors without entries, on an object that is well formed (at most
    63 planes, [n_buckets = 2 ^ n_planes]) and has [vector_dims = 0]:
    every dot product is the empty sum, zero, so every bit is 1 and every
    vector gets the hash value [n_buckets - 1] in every universe. *)
Theorem hash_values_without_dimensions {R : Type} `{Scalar R}
    (self : LSH R) (vectors : ndarray2 R) :
  well_formed self →
  dim1 (planes self) = 0%nat →
  cols2 vectors = 0%nat →
  ∃ hash_values,
    get_hash_values self vectors = Ok hash_values
    ∧ ∀ u n, at2 hash_values u n = n_buckets self - 1.
Proof.
  intros (HP & Hnb & _) Hdim Hcols.
  destruct (get_hash_values_Ok self vectors) as (hv & Hhv & _);
    [congruence|].
  exists hv. split; [done|]. intros u n.
  rewrite (hash_value_spec_pack self vectors hv u n HP Hhv), Hnb.
  rewrite <- spec_pack_all_set. f_equal.
  unfold spec_bit, dot_product_entry. rewrite Hcols. cbn [seq fold_left].
  unfold geb. by rewrite zero_eq_zero, orb_true_r.
Qed.

Lemma hash_values_without_dimensions_witness :
  let self := new_LSH all_ones 0 4 3 in
  let vectors := rows 0 [[]; []] in
  (well_formed self ∧ dim1 (planes self) = 0%nat ∧ cols2 vectors = 0%nat)
  ∧ ∃ hash_values,
      get_hash_values self vectors = Ok hash_values
      ∧ ∀ u n, at2 hash_values u n = 3.
Proof.
  intros self vectors.
  assert (well_formed self) as Hwf.
  { unfold well_formed. vm_compute. split; [lia|]. split; reflexivity. }
  split; [split; [exact Hwf|split; reflexivity]|].
  exact (hash_values_without_dimensions self vectors Hwf eq_refl eq_refl).
Defined.
